(** * Gossamer core data structures: ChangeTree, LeafSet, TrieState

    A shallow embedding of three components of the node:
    - the GRANDPA pending-change tree ([ChangeTree], package grandpa),
    - the leaf set of the block DAG ([LeafSet], package api),
    - the transactional trie state ([TrieState], package storage),
    together with the properties stated about them. *)

From Stdlib Require Import NArith String Ascii.
From stdpp Require Import gmap strings list fin_maps sorting.

Local Open Scope N_scope.

(** ** ChangeTree *)

Module ChangeTree.

Section ChangeTree.

(** The type parameters of [ChangeTree[H, N, ID]]: hashes with equality,
    authority identifiers, and heights as unsigned numbers.  [E] is the type
    of the errors the descendant oracle may return. *)
Context {Hash : Type} `{EqDecision Hash}.
Context {ID : Type}.
Context {E : Type}.

Record Authority : Type := mkAuthority {
  Key : ID;
  Weight : N
}.

(** Modelled from the spec: the struct [PendingChange] is declared in a file
    of the package that is not among the sources.  It carries the canonical
    hash and height of the announcing block, a delay and the next
    authorities; the tree reads [CanonHash] and [CanonHeight] only. *)
Record PendingChange : Type := mkPendingChange {
  CanonHash : Hash;
  CanonHeight : N;
  Delay : N;
  NextAuthorities : list Authority
}.

(** The errors of the package: the three structural errors, and the errors
    of the oracle, either wrapped by [importNode] ("cannot check
    ancestry: %w") or returned as they are. *)
Inductive Error : Type :=
  | errDuplicateHashes (h : Hash)
  | errUnfinalisedAncestor
  | errRevert
  | errAncestry (e : E)
  | errOracle (e : E).

(** What a Go call yields: a value, an error, or a panic. *)
Inductive result (A : Type) : Type :=
  | Ok (a : A)
  | Err (e : Error)
  | Panicked (msg : string).
Global Arguments Ok {A} a.
Global Arguments Err {A} e.
Global Arguments Panicked {A} msg.

Definition structural (e : Error) : Prop :=
  match e with
  | errDuplicateHashes _ | errUnfinalisedAncestor | errRevert => True
  | errAncestry _ | errOracle _ => False
  end.

(** [IsDescendentOf[H]]: is the second hash a descendent of the first. *)
Definition IsDescendentOf : Type := Hash → Hash → E + bool.

#[warnings="-register-all"]
Inductive PendingChangeNode : Type :=
  Node { Change : PendingChange; Children : list PendingChangeNode }.

Record ChangeTree : Type := mkChangeTree {
  TreeRoots : list PendingChangeNode;
  BestFinalizedNumber : option N
}.

Definition NewChangeTree : ChangeTree :=
  {| TreeRoots := []; BestFinalizedNumber := None |}.

Definition Roots (ct : ChangeTree) : list PendingChangeNode := TreeRoots ct.

Definition setRoots (roots : list PendingChangeNode) (ct : ChangeTree) : ChangeTree :=
  {| TreeRoots := roots; BestFinalizedNumber := BestFinalizedNumber ct |}.

Definition setBest (n : N) (ct : ChangeTree) : ChangeTree :=
  {| TreeRoots := TreeRoots ct; BestFinalizedNumber := Some n |}.

(** *** Import *)

(** The loop shared by [Import] (over the roots) and [importNode] (over the
    children): call [f] on each node in order, writing back what it did to
    the node, and stop at the first error or at the first node that took
    the import.  [None]: the loop ran to its end. *)
Definition importInto (f : PendingChangeNode → PendingChangeNode * result bool) :
  list PendingChangeNode → list PendingChangeNode * option (result bool) :=
  fix go nodes :=
    match nodes with
    | [] => ([], None)
    | node :: rest =>
        let '(node', r) := f node in
        match r with
        | Ok false => let '(rest', o) := go rest in (node' :: rest', o)
        | _ => (node' :: rest, Some r)
        end
    end.

(** [pcn.importNode]: the node after the call and what the call returned.
    The only write is the [append] right before [return true, nil]. *)
Fixpoint importNode (hash : Hash) (number : N) (change : PendingChange)
    (isDescendentOf : IsDescendentOf) (pcn : PendingChangeNode)
    : PendingChangeNode * result bool :=
  match pcn with
  | Node c children =>
      let announcingHash := CanonHash c in
      if decide (hash = announcingHash) then (pcn, Err (errDuplicateHashes hash))
      else
        match isDescendentOf announcingHash hash with
        | inl e => (pcn, Err (errAncestry e))
        | inr false => (pcn, Ok false)
        | inr true =>
            if number <=? CanonHeight c then (pcn, Ok false)
            else
              match importInto (importNode hash number change isDescendentOf) children with
              | (children', Some (Ok _)) => (Node c children', Ok true)
              | (children', Some r) => (Node c children', r)
              | (children', None) =>
                  (Node c (children' ++ [Node change []]), Ok true)
              end
        end
  end.

(** [ct.Import]: the tree after the call and what the call returned
    ([Ok true]: the node became a new root). *)
Definition Import (hash : Hash) (number : N) (change : PendingChange)
    (isDescendentOf : IsDescendentOf) (ct : ChangeTree) : ChangeTree * result bool :=
  match importInto (importNode hash number change isDescendentOf) (TreeRoots ct) with
  | (roots', Some (Ok _)) => (setRoots roots' ct, Ok false)
  | (roots', Some r) => (setRoots roots' ct, r)
  | (roots', None) => (setRoots (roots' ++ [Node change []]) ct, Ok true)
  end.

(** *** Traversals *)

(** The function [getPreOrderChangeNodes]: a node, then its children's
    subtrees in order. *)
Fixpoint preOrderNodes (changeNode : PendingChangeNode) : list PendingChangeNode :=
  match changeNode with
  | Node c children => changeNode :: flat_map preOrderNodes children
  end.

(** The method [ct.getPreOrderChangeNodes]. *)
Definition getPreOrderChangeNodes (ct : ChangeTree) : list PendingChangeNode :=
  flat_map preOrderNodes (TreeRoots ct).

Definition PendingChanges (ct : ChangeTree) : list PendingChange :=
  map Change (getPreOrderChangeNodes ct).

(** *** Finalization *)

(** The guard at the head of both finalization methods. *)
Definition reverts (number : N) (ct : ChangeTree) : bool :=
  match BestFinalizedNumber ct with
  | Some best => number <=? best
  | None => false
  end.

(** The inner loop over the children of a matching node: no child at or
    below [number] may be the finalized block or one of its ancestors. *)
Fixpoint checkChildren (hash : Hash) (number : N) (isDescendentOf : IsDescendentOf)
    (children : list PendingChangeNode) : result unit :=
  match children with
  | [] => Ok tt
  | child :: rest =>
      match isDescendentOf (CanonHash (Change child)) hash with
      | inl e => Err (errOracle e)
      | inr isChildDescOf =>
          if (CanonHeight (Change child) <=? number)
             && (bool_decide (CanonHash (Change child) = hash) || isChildDescOf)
          then Err errUnfinalisedAncestor
          else checkChildren hash number isDescendentOf rest
      end
  end.

(** The loop of [FinalizesAnyWithDescendentIf] over the nodes in pre-order. *)
Fixpoint finalizesAny (hash : Hash) (number : N) (isDescendentOf : IsDescendentOf)
    (predicate : PendingChange → bool) (roots nodes : list PendingChangeNode)
    : result (option bool) :=
  match nodes with
  | [] => Ok None
  | root :: rest =>
      match isDescendentOf (CanonHash (Change root)) hash with
      | inl e => Err (errOracle e)
      | inr isDesc =>
          if predicate (Change root)
             && (bool_decide (CanonHash (Change root) = hash) || isDesc)
          then
            match checkChildren hash number isDescendentOf (Children root) with
            | Ok _ =>
                Ok (Some (existsb
                  (λ val, bool_decide (CanonHash (Change val) = CanonHash (Change root)))
                  roots))
            | Err e => Err e
            | Panicked msg => Panicked msg
            end
          else finalizesAny hash number isDescendentOf predicate roots rest
      end
  end.

(** [ct.FinalizesAnyWithDescendentIf]: the tree after the call and what the
    call returned. *)
Definition FinalizesAnyWithDescendentIf (hash : Hash) (number : N)
    (isDescendentOf : IsDescendentOf) (predicate : PendingChange → bool)
    (ct : ChangeTree) : ChangeTree * result (option bool) :=
  if reverts number ct then (ct, Err errRevert)
  else
    let roots := Roots ct in
    let nodes := getPreOrderChangeNodes ct in
    (ct, finalizesAny hash number isDescendentOf predicate roots nodes).

(** [FinalizationResult]: [changed{value}] with an optional change, or
    [unchanged]. *)
Inductive FinalizationResult : Type :=
  | changed (value : option PendingChange)
  | unchanged.

(** The first loop of [FinalizeWithDescendentIf]: the index of the first
    root that passes the predicate and is the finalized block or one of its
    ancestors. *)
Fixpoint findPosition (hash : Hash) (number : N) (isDescendentOf : IsDescendentOf)
    (predicate : PendingChange → bool) (roots : list PendingChangeNode) (i : nat)
    : result (option nat) :=
  match roots with
  | [] => Ok None
  | root :: rest =>
      match isDescendentOf (CanonHash (Change root)) hash with
      | inl e => Err (errOracle e)
      | inr isDesc =>
          if predicate (Change root)
             && (bool_decide (CanonHash (Change root) = hash) || isDesc)
          then
            match checkChildren hash number isDescendentOf (Children root) with
            | Ok _ => Ok (Some i)
            | Err e => Err e
            | Panicked msg => Panicked msg
            end
          else findPosition hash number isDescendentOf predicate rest (S i)
      end
  end.

(** [ct.swapRemove(roots, index)]: the element at [index] is returned and
    replaced by the last one; the shortened slice becomes [ct.TreeRoots]. *)
Definition swapRemove (roots : list PendingChangeNode) (index : nat) (ct : ChangeTree)
    : ChangeTree * result PendingChangeNode :=
  match roots !! index with
  | None => (ct, Panicked "swap_remove index out of bounds")
  | Some val =>
      let newRoots := take (length roots - 1) roots in
      if decide (index = length newRoots) then (setRoots newRoots ct, Ok val)
      else
        match last roots with
        | Some lastElem => (setRoots (<[index := lastElem]> newRoots) ct, Ok val)
        | None => (ct, Panicked "swap_remove index out of bounds")
        end
  end.

(** Whether the second loop of [FinalizeWithDescendentIf] keeps a root. *)
Definition retains (hash : Hash) (number : N) (isDescendentOf : IsDescendentOf)
    (root : PendingChangeNode) : result bool :=
  if number <? CanonHeight (Change root) then
    match isDescendentOf hash (CanonHash (Change root)) with
    | inl e => Err (errOracle e)
    | inr isDescA => Ok isDescA
    end
  else if (CanonHeight (Change root) =? number)
          && bool_decide (CanonHash (Change root) = hash) then Ok true
  else
    match isDescendentOf (CanonHash (Change root)) hash with
    | inl e => Err (errOracle e)
    | inr isDescB => Ok isDescB
    end.

(** The second loop of [FinalizeWithDescendentIf], over the roots taken
    before [ct.TreeRoots] was emptied: a kept root is appended to
    [ct.TreeRoots], and [ct.BestFinalizedNumber] is assigned at the end of
    every iteration. *)
Fixpoint pruneRoots (hash : Hash) (number : N) (isDescendentOf : IsDescendentOf)
    (roots : list PendingChangeNode) (didChange : bool) (ct : ChangeTree)
    : ChangeTree * result bool :=
  match roots with
  | [] => (ct, Ok didChange)
  | root :: rest =>
      match retains hash number isDescendentOf root with
      | Ok retain =>
          let ct1 := if retain then setRoots (TreeRoots ct ++ [root]) ct else ct in
          let didChange1 := if retain then didChange else true in
          pruneRoots hash number isDescendentOf rest didChange1 (setBest number ct1)
      | Err e => (ct, Err e)
      | Panicked msg => (ct, Panicked msg)
      end
  end.

(** [ct.FinalizeWithDescendentIf]: the tree after the call and what the call
    returned. *)
Definition FinalizeWithDescendentIf (hash : Hash) (number : N)
    (isDescendentOf : IsDescendentOf) (predicate : PendingChange → bool)
    (ct : ChangeTree) : ChangeTree * result FinalizationResult :=
  if reverts number ct then (ct, Err errRevert)
  else
    let roots := Roots ct in
    match findPosition hash number isDescendentOf predicate roots 0 with
    | Err e => (ct, Err e)
    | Panicked msg => (ct, Panicked msg)
    | Ok position =>
        let finalized : ChangeTree * result (option PendingChange) :=
          match position with
          | Some pos =>
              match swapRemove (Roots ct) pos ct with
              | (ct1, Ok node) =>
                  ({| TreeRoots := Children node;
                      BestFinalizedNumber := Some (CanonHeight (Change node)) |},
                   Ok (Some (Change node)))
              | (ct1, Err e) => (ct1, Err e)
              | (ct1, Panicked msg) => (ct1, Panicked msg)
              end
          | None => (ct, Ok None)
          end in
        match finalized with
        | (ct1, Err e) => (ct1, Err e)
        | (ct1, Panicked msg) => (ct1, Panicked msg)
        | (ct1, Ok nodeData) =>
            let roots := Roots ct1 in
            match pruneRoots hash number isDescendentOf roots false (setRoots [] ct1) with
            | (ct2, Err e) => (ct2, Err e)
            | (ct2, Panicked msg) => (ct2, Panicked msg)
            | (ct2, Ok didChange) =>
                match nodeData with
                | Some _ => (ct2, Ok (changed nodeData))
                | None =>
                    if didChange then (ct2, Ok (changed None))
                    else (ct2, Ok unchanged)
                end
            end
        end
    end.

(** *** The shape of the forest *)

(** Whether the oracle answers [true] without error. *)
Definition descendsFrom (isDescendentOf : IsDescendentOf) (base target : Hash) : bool :=
  match isDescendentOf base target with
  | inr true => true
  | _ => false
  end.

(** Whether along every edge below the node the child is higher than its
    parent and, by the oracle, a descendent of it. *)
Fixpoint edgesOk (isDescendentOf : IsDescendentOf) (pcn : PendingChangeNode) : bool :=
  match pcn with
  | Node c children =>
      forallb
        (λ child,
           (CanonHeight c <? CanonHeight (Change child))
           && descendsFrom isDescendentOf (CanonHash c) (CanonHash (Change child))
           && edgesOk isDescendentOf child)
        children
  end.

End ChangeTree.

Global Arguments Error : clear implicits.
Global Arguments result : clear implicits.
Global Arguments IsDescendentOf : clear implicits.
Global Arguments PendingChange : clear implicits.
Global Arguments PendingChangeNode : clear implicits.
Global Arguments ChangeTree : clear implicits.

End ChangeTree.

(** ** LeafSet *)

Module LeafSet.

(** *** The ordered map of the leaf set

    The storage is a [btree.Map[N, []H]] of the library tidwall/btree: an
    ordered map, here a [gmap] together with the orders in which the
    library walks it.  [scan] is the ascending walk of all entries,
    [ascend pivot] the ascending walk of the range from [pivot] to the last
    key, [descending] the descending walk of all entries (the library's
    [Reverse]).  A walk hands the entries to a callback one by one and stops
    when the callback returns [false]. *)

Definition key_le {V : Type} (a b : N * V) : Prop := a.1 ≤ b.1.

#[global]
Instance key_le_dec {V : Type} : RelDecision (@key_le V).
Proof. intros a b. unfold key_le. apply _. Defined.

Definition scan {V : Type} (m : gmap N V) : list (N * V) :=
  merge_sort key_le (map_to_list m).

Definition ascend {V : Type} (pivot : N) (m : gmap N V) : list (N * V) :=
  filter (λ kv, pivot ≤ kv.1) (scan m).

Definition descending {V : Type} (m : gmap N V) : list (N * V) :=
  reverse (scan m).

Definition values {V : Type} (m : gmap N V) : list V := (scan m).*2.

Section LeafSet.

(** The type parameters of [LeafSet[H, N]].  [N] is an unsigned integer
    type; [maxNumber] is its largest value, which [number - 1] yields at
    [number = 0]. *)
Context {Hash : Type} `{EqDecision Hash}.
Variable maxNumber : N.

Definition sub1 (number : N) : N :=
  if decide (number = 0) then maxNumber else number - 1.

Record leafSetItem : Type := mkItem {
  hash : Hash;
  number : N
}.

(** The outcomes; the Go fields [inserted] and [removed] of the three
    structs carry the struct's initials here. *)
Record ImportOutcome : Type := mkImportOutcome {
  io_inserted : leafSetItem;
  io_removed : option Hash
}.

Record RemoveOutcome : Type := mkRemoveOutcome {
  ro_inserted : option Hash;
  ro_removed : leafSetItem
}.

Record FinalizationOutcome : Type := mkFinalizationOutcome {
  fo_removed : gmap N (list Hash)
}.

Record LeafSet : Type := mkLeafSet {
  storage : gmap N (list Hash)
}.

Definition NewLeafSet : LeafSet := {| storage := ∅ |}.

(** [fo.Leaves()]. *)
Definition Leaves (fo : FinalizationOutcome) : list Hash :=
  concat (values (fo_removed fo)).

(** [ls.insertLeaf]: the hash is appended to the level, whether or not it
    is there already. *)
Definition insertLeaf (number : N) (hash : Hash) (ls : LeafSet) : LeafSet :=
  match storage ls !! number with
  | None => {| storage := <[number := [hash]]> (storage ls) |}
  | Some hashes => {| storage := <[number := hashes ++ [hash]]> (storage ls) |}
  end.

(** [ls.removeLeaf]: every occurrence of the hash leaves the level, and a
    level emptied by a removal is deleted.  Returns [true] if a leaf was
    found. *)
Definition removeLeaf (number : N) (hash : Hash) (ls : LeafSet) : LeafSet * bool :=
  match storage ls !! number with
  | Some leaves =>
      let found := bool_decide (hash ∈ leaves) in
      let retained := filter (λ h, h ≠ hash) leaves in
      let stored := <[number := retained]> (storage ls) in
      let empty := bool_decide (length retained = 0%nat) in
      if found && empty then ({| storage := delete number stored |}, found)
      else ({| storage := stored |}, found)
  | None => (ls, false)
  end.

(** [ls.Import]. *)
Definition Import (hash : Hash) (number : N) (parentHash : Hash) (ls : LeafSet)
    : LeafSet * ImportOutcome :=
  let '(ls1, removed) :=
    if decide (number ≠ 0) then
      let parentNumber := number - 1 in
      let '(ls1, wasLeaf) := removeLeaf parentNumber parentHash ls in
      (ls1, if wasLeaf then Some parentHash else None)
    else (ls, None) in
  (insertLeaf number hash ls1,
   {| io_inserted := mkItem hash number; io_removed := removed |}).

(** [ls.Remove]; [None] is the Go [nil]. *)
Definition Remove (hash : Hash) (number : N) (parentHash : option Hash) (ls : LeafSet)
    : LeafSet * option RemoveOutcome :=
  let '(ls1, wasLeaf) := removeLeaf number hash ls in
  if negb wasLeaf then (ls1, None)
  else
    match parentHash with
    | Some parent =>
        if decide (number ≠ 0) then
          let parentNumber := number - 1 in
          (insertLeaf parentNumber parent ls1,
           Some {| ro_inserted := Some parent; ro_removed := mkItem hash number |})
        else (ls1, None)
    | None =>
        (ls1, Some {| ro_inserted := None; ro_removed := mkItem hash number |})
    end.

(** [ls.FinalizeHeight].  The callback given to [Ascend] returns [false],
    so the walk stops after the first entry of the range that starts at
    [boundary]. *)
Definition FinalizeHeight (number : N) (ls : LeafSet) : LeafSet * FinalizationOutcome :=
  if decide (number = 0) then (ls, {| fo_removed := ∅ |})
  else
    let boundary := number - 1 in
    match head (ascend boundary (storage ls)) with
    | Some (key, value) =>
        ({| storage := delete key (storage ls) |}, {| fo_removed := {[ key := value ]} |})
    | None => (ls, {| fo_removed := ∅ |})
    end.

(** [ls.DisplacedByFinalHeight]. *)
Definition DisplacedByFinalHeight (number : N) (ls : LeafSet) : FinalizationOutcome :=
  if decide (number = 0) then {| fo_removed := ∅ |}
  else
    let boundary := number - 1 in
    match head (ascend boundary (storage ls)) with
    | Some (key, value) => {| fo_removed := {[ key := value ]} |}
    | None => {| fo_removed := ∅ |}
    end.

(** The items [Revert] collects from the descending walk. *)
Definition items (ls : LeafSet) : list leafSetItem :=
  descending (storage ls) ≫= λ kv, (λ h, mkItem h kv.1) <$> kv.2.

(** The second loop of [Revert]; [None] is the panic at a leaf that
    [removeLeaf] does not find. *)
Fixpoint dropAbove (bestNumber : N) (hns : list leafSetItem) (ls : LeafSet)
    : option LeafSet :=
  match hns with
  | [] => Some ls
  | hn :: rest =>
      if decide (bestNumber < number hn) then
        let '(ls1, wasLeaf) := removeLeaf (number hn) (hash hn) ls in
        if wasLeaf then dropAbove bestNumber rest ls1 else None
      else dropAbove bestNumber rest ls
  end.

(** [ls.Contains]. *)
Definition Contains (number : N) (hash : Hash) (ls : LeafSet) : bool :=
  match storage ls !! number with
  | Some hashes => bool_decide (hash ∈ hashes)
  | None => false
  end.

(** [ls.Revert]; [None] is a panic. *)
Definition Revert (bestHash : Hash) (bestNumber : N) (ls : LeafSet) : option LeafSet :=
  match dropAbove bestNumber (items ls) ls with
  | None => None
  | Some ls1 =>
      let leavesContainBest := Contains bestNumber bestHash ls1 in
      if negb leavesContainBest then Some (insertLeaf bestNumber bestHash ls1)
      else Some ls1
  end.

(** [ls.Hashes]. *)
Definition Hashes (ls : LeafSet) : list Hash :=
  descending (storage ls) ≫= snd.

(** [ls.Count]. *)
Definition Count (ls : LeafSet) : nat :=
  foldl (λ sum level, (sum + length level)%nat) 0%nat (values (storage ls)).

(** [ls.HighestLeaf]. *)
Definition HighestLeaf (ls : LeafSet) : option (N * list Hash) :=
  last (scan (storage ls)).

(** [u.UndoImport]. *)
Definition UndoImport (outcome : ImportOutcome) (ls : LeafSet) : LeafSet :=
  let ls1 :=
    match io_removed outcome with
    | Some removed =>
        let removedNumber := sub1 (number (io_inserted outcome)) in
        insertLeaf removedNumber removed ls
    | None => ls
    end in
  (removeLeaf (number (io_inserted outcome)) (hash (io_inserted outcome)) ls1).1.

(** [u.UndoRemove]. *)
Definition UndoRemove (outcome : RemoveOutcome) (ls : LeafSet) : LeafSet :=
  let ls1 :=
    match ro_inserted outcome with
    | Some inserted =>
        let insertedNumber := sub1 (number (ro_removed outcome)) in
        (removeLeaf insertedNumber inserted ls).1
    | None => ls
    end in
  insertLeaf (number (ro_removed outcome)) (hash (ro_removed outcome)) ls1.

(** [u.UndoFinalization]. *)
Definition UndoFinalization (outcome : FinalizationOutcome) (ls : LeafSet) : LeafSet :=
  foldl (λ acc kv, {| storage := <[kv.1 := kv.2]> (storage acc) |}) ls
        (descending (fo_removed outcome)).

(** *** Sequences of operations *)

(** The operations a caller applies to a leaf set; an undo is given the
    outcome it consumes. *)
Inductive Op : Type :=
  | OpImport (hash : Hash) (number : N) (parentHash : Hash)
  | OpRemove (hash : Hash) (number : N) (parentHash : option Hash)
  | OpFinalizeHeight (number : N)
  | OpRevert (bestHash : Hash) (bestNumber : N)
  | OpUndoImport (outcome : ImportOutcome)
  | OpUndoRemove (outcome : RemoveOutcome)
  | OpUndoFinalization (outcome : FinalizationOutcome).

(** The leaf set after an operation; [None] is a panic. *)
Definition step (op : Op) (ls : LeafSet) : option LeafSet :=
  match op with
  | OpImport hash number parentHash => Some (Import hash number parentHash ls).1
  | OpRemove hash number parentHash => Some (Remove hash number parentHash ls).1
  | OpFinalizeHeight number => Some (FinalizeHeight number ls).1
  | OpRevert bestHash bestNumber => Revert bestHash bestNumber ls
  | OpUndoImport outcome => Some (UndoImport outcome ls)
  | OpUndoRemove outcome => Some (UndoRemove outcome ls)
  | OpUndoFinalization outcome => Some (UndoFinalization outcome ls)
  end.

Fixpoint run (ops : list Op) (ls : LeafSet) : option LeafSet :=
  match ops with
  | [] => Some ls
  | op :: rest =>
      match step op ls with
      | Some ls1 => run rest ls1
      | None => None
      end
  end.

(** No hash twice at the same number. *)
Definition noDuplicates (ls : LeafSet) : Prop :=
  map_Forall (λ _ hashes, NoDup hashes) (storage ls).

(** Whether the leaf that the operation hands to [insertLeaf], if any, is
    not at its number already, and whether the levels that
    [UndoFinalization] restores have no hash twice. *)
Definition insertsNew (op : Op) (ls : LeafSet) : bool :=
  match op with
  | OpImport hash number _ => negb (Contains number hash ls)
  | OpRemove hash number (Some parent) =>
      if Contains number hash ls && bool_decide (number ≠ 0)
      then negb (Contains (number - 1) parent ls)
      else true
  | OpRemove _ _ None | OpFinalizeHeight _ | OpRevert _ _ => true
  | OpUndoImport outcome =>
      match io_removed outcome with
      | Some removed =>
          negb (Contains (sub1 (number (io_inserted outcome))) removed ls)
      | None => true
      end
  | OpUndoRemove outcome =>
      let ls1 :=
        match ro_inserted outcome with
        | Some inserted => (removeLeaf (sub1 (number (ro_removed outcome))) inserted ls).1
        | None => ls
        end in
      negb (Contains (number (ro_removed outcome)) (hash (ro_removed outcome)) ls1)
  | OpUndoFinalization outcome =>
      bool_decide (map_Forall (λ _ hashes, NoDup hashes) (fo_removed outcome))
  end.

(** [insertsNew] at every operation of the sequence. *)
Fixpoint allInsertNew (ops : list Op) (ls : LeafSet) : bool :=
  match ops with
  | [] => true
  | op :: rest =>
      insertsNew op ls &&
      match step op ls with
      | Some ls1 => allInsertNew rest ls1
      | None => true
      end
  end.

End LeafSet.

Global Arguments leafSetItem : clear implicits.
Global Arguments ImportOutcome : clear implicits.
Global Arguments RemoveOutcome : clear implicits.
Global Arguments FinalizationOutcome : clear implicits.
Global Arguments LeafSet : clear implicits.
Global Arguments Op : clear implicits.

(** *** Persistence *)

Section Persistence.

(** The leaf set is written to and read from the database as the SCALE
    encoding of a list of numbers with their hashes.  The codec of the
    package pkg/scale is taken as a parameter: [marshal] is
    [scale.MustMarshal] and [unmarshal] is [scale.Unmarshal], [None] being
    its error. *)
Context {Hash : Type} `{EqDecision Hash} {Bytes : Type}.
Variable marshal : list (N * list Hash) → Bytes.
Variable unmarshal : Bytes → option (list (N * list Hash)).

(** [ls.PrepareTransaction]: the value that the transaction sets at the
    column and prefix, the levels in descending order of their number. *)
Definition PrepareTransaction (ls : LeafSet Hash) : Bytes :=
  marshal (descending (storage ls)).

(** [NewLeafSetFromDB], given what the database holds at the column and
    prefix ([None]: nothing); the result is [None] when decoding fails. *)
Definition NewLeafSetFromDB (leaves : option Bytes) : option (LeafSet Hash) :=
  match leaves with
  | Some encoded =>
      match unmarshal encoded with
      | Some vals =>
          Some {| storage := foldl (λ acc nh, <[nh.1 := nh.2]> acc) ∅ vals |}
      | None => None
      end
  | None => Some NewLeafSet
  end.

End Persistence.

End LeafSet.

(** ** TrieState *)

Module TrieState.

(** A Go [[]byte]: [nil] or a byte string.  Keys are used as
    [string(key)]. *)
Definition bytes : Type := option string.

(** *** Sorted key lists *)

(** The loop of [slices.BinarySearch]: with [x[i-1] < target] and
    [x[j] >= target], halve the range until [i = j].  The range shrinks at
    every step, so [length x + 1] steps are enough. *)
Fixpoint searchLoop (steps : nat) (x : list string) (target : string) (i j : nat) : nat :=
  match steps with
  | O => i
  | S steps' =>
      if (i <? j)%nat then
        let h := ((i + j) / 2)%nat in
        if String.ltb (nth h x EmptyString) target
        then searchLoop steps' x target (h + 1)%nat j
        else searchLoop steps' x target i h
      else i
  end.

(** [slices.BinarySearch]: the first position whose element is not below
    the target, and whether the target is there. *)
Definition BinarySearch (x : list string) (target : string) : nat * bool :=
  let n := length x in
  let i := searchLoop (S n) x target 0%nat n in
  (i, bool_decide (x !! i = Some target)).

(** [sort.Strings]. *)
Definition sortStrings (keys : list string) : list string :=
  merge_sort String.le keys.

(** [t.insertSortedKey]. *)
Definition insertSortedKey (keys : list string) (key : string) : list string :=
  let '(pos, found) := BinarySearch keys key in
  if found then keys
  else take pos keys ++ key :: drop pos keys.

(** [t.removeSortedKey]. *)
Definition removeSortedKey (keys : list string) (key : string) : list string :=
  let '(pos, found) := BinarySearch keys key in
  if found then take pos keys ++ drop (S pos) keys
  else keys.

(** The loop of [t.removePrefixedSortedKey]: the key at the position of
    the prefix is removed as long as it starts with the prefix and the
    limit is not reached.  Every turn removes a key, so as many turns as
    there are keys are enough. *)
Fixpoint removePrefixedLoop (turns : nat) (keys : list string) (prefix : string)
    (limit amountDeleted : Z) : list string :=
  match turns with
  | O => keys
  | S turns' =>
      let '(pos, _) := BinarySearch keys prefix in
      match keys !! pos with
      | None => keys
      | Some k =>
          if negb (String.prefix prefix k) then keys
          else
            let keys' := take pos keys ++ drop (S pos) keys in
            let amountDeleted' := (amountDeleted + 1)%Z in
            if (0 <? limit)%Z && (limit =? amountDeleted')%Z then keys'
            else removePrefixedLoop turns' keys' prefix limit amountDeleted'
      end
  end.

(** [t.removePrefixedSortedKey]. *)
Definition removePrefixedSortedKey (keys : list string) (prefix : string) (limit : Z)
    : list string :=
  if (limit =? 0)%Z then keys
  else removePrefixedLoop (length keys) keys prefix limit 0.

(** The keys are in ascending order, each of them once. *)
Definition keysSorted (keys : list string) : Prop :=
  StronglySorted String.le keys ∧ NoDup keys.

(** *** The trie and the storage diff *)

(** Modelled from the spec: [trie.Trie] is an interface of the package
    pkg/trie, which is not among the sources.  The state container reads
    and writes the committed trie through [Get], [Put], [Delete] and
    [NextKey]; the writes of the in-memory trie are taken not to fail. *)
Class Trie (T : Type) : Type := {
  trie_get : T → string → bytes;
  trie_put : T → string → bytes → T;
  trie_delete : T → string → T;
  trie_next_key : T → string → bytes;
  (** what [Get] reads back for a value that was [Put] *)
  trie_stored : bytes → bytes
}.

(** Modelled from the spec: a trie is a map from keys to values, a [Put]
    is read back at its key and a [Delete] leaves no value there; other
    keys are not affected. *)
Class TrieLaws (T : Type) `{Trie T} : Prop := {
  trie_get_put : ∀ (t : T) k v k',
    trie_get (trie_put t k v) k' = if decide (k = k') then trie_stored v else trie_get t k';
  trie_get_delete : ∀ (t : T) k k',
    trie_get (trie_delete t k) k' = if decide (k = k') then None else trie_get t k'
}.

(** Modelled from the spec: the struct [storageDiff] and its methods are
    declared in a file of the package that is not among the sources.  A diff
    holds the upserts, the deleted keys and the sorted keys of the upserts;
    upserts and deletes are kept disjoint: a put removes the key from the
    deletes, a delete removes it from the upserts.  The changes of child
    tries are left out. *)
Record storageDiff : Type := mkStorageDiff {
  upserts : gmap string bytes;
  deletes : gset string;
  diffSortedKeys : list string
}.

(** Modelled from the spec: the empty diff. *)
Definition newStorageDiff : storageDiff :=
  {| upserts := ∅; deletes := ∅; diffSortedKeys := [] |}.

(** Modelled from the spec: a snapshot is a copy that shares nothing with
    the diff it is taken from. *)
Definition snapshot (cs : storageDiff) : storageDiff :=
  {| upserts := upserts cs; deletes := deletes cs; diffSortedKeys := diffSortedKeys cs |}.

(** Modelled from the spec: a put removes the key from the deletes, records
    the value and sorted-inserts the key. *)
Definition upsert (key : string) (value : bytes) (cs : storageDiff) : storageDiff :=
  {| upserts := <[key := value]> (upserts cs);
     deletes := deletes cs ∖ {[ key ]};
     diffSortedKeys := insertSortedKey (diffSortedKeys cs) key |}.

(** Modelled from the spec: a delete removes the key from the upserts,
    records the deletion and sorted-removes the key. *)
Definition delete (key : string) (cs : storageDiff) : storageDiff :=
  {| upserts := base.delete key (upserts cs);
     deletes := {[ key ]} ∪ deletes cs;
     diffSortedKeys := removeSortedKey (diffSortedKeys cs) key |}.

(** Modelled from the spec: the override of a key and whether the key is
    deleted. *)
Definition get (key : string) (cs : storageDiff) : bytes * bool :=
  if decide (key ∈ deletes cs) then (None, true)
  else (default None (upserts cs !! key), false).

(** A write of the runtime: [Put] or [Delete]. *)
Inductive write : Type :=
  | WPut (key : string) (value : bytes)
  | WDelete (key : string).

(** A call of the runtime on the state container: a write, or the start,
    the rollback or the commit of a transaction. *)
Inductive call : Type :=
  | CWrite (w : write)
  | CStart
  | CRollback
  | CCommit.

(** The write as the innermost diff records it. *)
Definition record (w : write) (cs : storageDiff) : storageDiff :=
  match w with
  | WPut key value => upsert key value cs
  | WDelete key => delete key cs
  end.

(** What a key reads through a diff laid over the values [base] of the
    trie, [stored] being what the trie reads back for a value put. *)
Definition overlay (stored : bytes → bytes) (cs : storageDiff) (base : string → bytes)
    (key : string) : bytes :=
  if decide (key ∈ deletes cs) then None
  else
    match upserts cs !! key with
    | Some value => stored value
    | None => base key
    end.

Section TrieState.

Context {T : Type} `{Trie T}.

(** Modelled from the spec: the cumulative diff is applied to the trie, the
    upserts as puts and the deletes as deletes. *)
Definition applyToTrie (cs : storageDiff) (t : T) : T :=
  set_fold (λ k acc, trie_delete acc k)
    (map_fold (λ k v acc, trie_put acc k v) t (upserts cs))
    (deletes cs).

(** The struct [TrieState].  [transactions] is the stack of diffs with the
    innermost one, the back of the Go list, at its head.  The lock and the
    sorted keys of the child tries are left out. *)
Record TrieState : Type := mkTrieState {
  state : T;
  transactions : list storageDiff;
  sortedKeys : list string
}.

Definition NewTrieState (initialState : T) : TrieState :=
  {| state := initialState; transactions := []; sortedKeys := [] |}.

Definition getCurrentTransaction (t : TrieState) : option storageDiff :=
  head (transactions t).

(** [t.StartTransaction]. *)
Definition StartTransaction (t : TrieState) : TrieState :=
  let nextChangeSet :=
    match getCurrentTransaction t with
    | Some cs => cs
    | None => newStorageDiff
    end in
  {| state := state t;
     transactions := snapshot nextChangeSet :: transactions t;
     sortedKeys := sortedKeys t |}.

(** [t.RollbackTransaction]; [None] is the panic without a transaction. *)
Definition RollbackTransaction (t : TrieState) : option TrieState :=
  match transactions t with
  | [] => None
  | _ :: outer =>
      Some {| state := state t; transactions := outer; sortedKeys := sortedKeys t |}
  end.

Definition addMainTrieSortedKey (key : string) (t : TrieState) : TrieState :=
  {| state := state t; transactions := transactions t;
     sortedKeys := insertSortedKey (sortedKeys t) key |}.

Definition removeMainTrieSortedKey (key : string) (t : TrieState) : TrieState :=
  {| state := state t; transactions := transactions t;
     sortedKeys := removeSortedKey (sortedKeys t) key |}.

(** [t.CommitTransaction]; [None] is the panic without a transaction.  With
    an outer transaction the innermost diff takes its place; the last diff
    is applied to the trie and to the sorted keys. *)
Definition CommitTransaction (t : TrieState) : option TrieState :=
  match transactions t with
  | [] => None
  | tx :: _ :: outer =>
      Some {| state := state t; transactions := tx :: outer; sortedKeys := sortedKeys t |}
  | [tx] =>
      let t1 := {| state := applyToTrie tx (state t); transactions := [];
                   sortedKeys := sortedKeys t |} in
      let t2 := foldl (λ acc k, addMainTrieSortedKey k acc) t1 (diffSortedKeys tx) in
      Some (foldl (λ acc k, removeMainTrieSortedKey k acc) t2 (elements (deletes tx)))
  end.

(** Writing to the innermost diff, which the Go code reaches through the
    pointer held by the back of the list. *)
Definition onCurrent (f : storageDiff → storageDiff) (t : TrieState) : TrieState :=
  match transactions t with
  | [] => t
  | cs :: outer =>
      {| state := state t; transactions := f cs :: outer; sortedKeys := sortedKeys t |}
  end.

(** [t.Put]. *)
Definition Put (key : string) (value : bytes) (t : TrieState) : TrieState :=
  match getCurrentTransaction t with
  | Some _ => onCurrent (upsert key value) t
  | None =>
      addMainTrieSortedKey key
        {| state := trie_put (state t) key value; transactions := transactions t;
           sortedKeys := sortedKeys t |}
  end.

(** [t.Get]. *)
Definition Get (key : string) (t : TrieState) : bytes :=
  match getCurrentTransaction t with
  | Some currentTx =>
      let '(val, deleted) := get key currentTx in
      if bool_decide (val ≠ None) || deleted then val
      else trie_get (state t) key
  | None => trie_get (state t) key
  end.

(** [t.Has]. *)
Definition Has (key : string) (t : TrieState) : bool :=
  bool_decide (Get key t ≠ None).

(** [t.Delete]. *)
Definition Delete (key : string) (t : TrieState) : TrieState :=
  match getCurrentTransaction t with
  | Some _ => onCurrent (delete key) t
  | None =>
      removeMainTrieSortedKey key
        {| state := trie_delete (state t) key; transactions := transactions t;
           sortedKeys := sortedKeys t |}
  end.

(** [t.NextKey]. *)
Definition NextKey (key : string) (t : TrieState) : bytes :=
  match getCurrentTransaction t with
  | Some currentTx =>
      let mainStateSortedKeys :=
        filter (λ s, s ∉ deletes currentTx) (sortedKeys t) in
      let allSortedKeys :=
        sortStrings (mainStateSortedKeys ++ diffSortedKeys currentTx) in
      let '(pos, found) := BinarySearch allSortedKeys key in
      let pos := if found then (pos + 1)%nat else pos in
      allSortedKeys !! pos
  | None => trie_next_key (state t) key
  end.

Definition perform (w : write) (t : TrieState) : TrieState :=
  match w with
  | WPut key value => Put key value t
  | WDelete key => Delete key t
  end.

Definition performAll (ws : list write) (t : TrieState) : TrieState :=
  foldl (λ acc w, perform w acc) t ws.

(** The state after a call; [None] is a panic. *)
Definition invoke (c : call) (t : TrieState) : option TrieState :=
  match c with
  | CWrite w => Some (perform w t)
  | CStart => Some (StartTransaction t)
  | CRollback => RollbackTransaction t
  | CCommit => CommitTransaction t
  end.

(** The state after a sequence of calls, up to the first panic. *)
Fixpoint invokeAll (cs : list call) (t : TrieState) : option TrieState :=
  match cs with
  | [] => Some t
  | c :: cs' =>
      match invoke c t with
      | Some t' => invokeAll cs' t'
      | None => None
      end
  end.

End TrieState.

Global Arguments TrieState T : clear implicits.

(** A trie for the examples: a map from keys to byte strings, in which a
    [nil] value is stored as the empty byte string. *)
Definition mapTrieNextKey (t : gmap string string) (key : string) : bytes :=
  head (filter (λ k, String.ltb key k = true) (sortStrings (elements (dom t)))).

#[global]
Instance mapTrie : Trie (gmap string string) := {|
  trie_get t k := t !! k;
  trie_put t k v := <[k := default EmptyString v]> t;
  trie_delete t k := base.delete k t;
  trie_next_key := mapTrieNextKey;
  trie_stored v := Some (default EmptyString v)
|}.

End TrieState.

(** ** Concrete scenarios *)

Module Scenarios.

Import ChangeTree.

(** Three blocks: [hA] at height 10, its child [hB] at height 11, and [hC]
    at height 5 on another fork.  The oracle knows that [hB] descends from
    [hA] and never fails. *)
Definition hA : nat := 1%nat.
Definition hB : nat := 2%nat.
Definition hC : nat := 3%nat.

Definition descends : IsDescendentOf nat Empty_set :=
  λ base target, inr (bool_decide (base = hA ∧ target = hB)).

Definition changeAt (h : nat) (n : N) : PendingChange nat nat :=
  {| CanonHash := h; CanonHeight := n; Delay := 0; NextAuthorities := [] |}.

Definition always : PendingChange nat nat → bool := λ _, true.

Definition emptyTree : ChangeTree nat nat := NewChangeTree.

(** The tree with the root [hA] and its child [hB]. *)
Definition treeAB : ChangeTree nat nat :=
  (Import hB 11 (changeAt hB 11) descends
     (Import hA 10 (changeAt hA 10) descends emptyTree).1).1.

(** [treeAB] after [hA] was finalized at height 10. *)
Definition treeFinalizedA : ChangeTree nat nat :=
  (FinalizeWithDescendentIf hA 10 descends always treeAB).1.

(** The tree with the single root [hA]. *)
Definition treeA : ChangeTree nat nat :=
  (Import hA 10 (changeAt hA 10) descends emptyTree).1.

(** Leaf sets over [uint32] numbers with hashes as numbers. *)
Definition maxUint32 : N := 4294967295.

Definition emptyLeaves : LeafSet.LeafSet nat := LeafSet.NewLeafSet.

(** A leaf at number 5 and a leaf at number 12. *)
Definition leavesLowHigh : LeafSet.LeafSet nat :=
  (LeafSet.Import 200%nat 12 20%nat (LeafSet.Import 100%nat 5 10%nat emptyLeaves).1).1.

(** The single leaf 7 at number 0. *)
Definition leavesGenesis : LeafSet.LeafSet nat :=
  (LeafSet.Import 7%nat 0 0%nat emptyLeaves).1.

(** The single leaf 100 at number 1. *)
Definition leavesOne : LeafSet.LeafSet nat :=
  (LeafSet.Import 100%nat 1 10%nat emptyLeaves).1.

(** The operations of a caller that imports two blocks, undoes the second
    import and reverts to the first block. *)
Definition importUndoRevert : list (LeafSet.Op nat) :=
  [ LeafSet.OpImport 100%nat 1 10%nat;
    LeafSet.OpImport 200%nat 2 100%nat;
    LeafSet.OpUndoImport
      {| LeafSet.io_inserted := LeafSet.mkItem 200%nat 2;
         LeafSet.io_removed := Some 100%nat |};
    LeafSet.OpRevert 100%nat 1 ].

Local Open Scope string_scope.

(** A trie state over the map trie with the committed keys [a] and [b]. *)
Definition committedAB : TrieState.TrieState (gmap string string) :=
  TrieState.Put "b" (Some "1")
    (TrieState.Put "a" (Some "1") (TrieState.NewTrieState ∅)).

(** [committedAB] with an open transaction that has overwritten [a]. *)
Definition overwrittenA : TrieState.TrieState (gmap string string) :=
  TrieState.Put "a" (Some "2") (TrieState.StartTransaction committedAB).

(** Writes of a transaction. *)
Definition someWrites : list TrieState.write :=
  [ TrieState.WPut "a" (Some "2"); TrieState.WDelete "b";
    TrieState.WPut "c" None; TrieState.WDelete "a"; TrieState.WPut "b" (Some "3") ].

(** [committedAB] with an open transaction that has put [c] and deleted
    [b], and the diff of this transaction. *)
Definition pendingC : TrieState.TrieState (gmap string string) :=
  TrieState.Delete "b"
    (TrieState.Put "c" (Some "1") (TrieState.StartTransaction committedAB)).

Definition pendingCDiff : TrieState.storageDiff :=
  default TrieState.newStorageDiff (TrieState.getCurrentTransaction pendingC).

(** Calls of the runtime on a new state container, and the state after
    them. *)
Definition someCalls : list TrieState.call :=
  [ TrieState.CWrite (TrieState.WPut "c" (Some "1"));
    TrieState.CWrite (TrieState.WPut "a" (Some "1"));
    TrieState.CStart;
    TrieState.CWrite (TrieState.WPut "b" (Some "2"));
    TrieState.CWrite (TrieState.WDelete "c");
    TrieState.CStart;
    TrieState.CWrite (TrieState.WPut "d" None);
    TrieState.CRollback;
    TrieState.CCommit ].

Definition afterSomeCalls : TrieState.TrieState (gmap string string) :=
  default (TrieState.NewTrieState ∅)
    (TrieState.invokeAll someCalls (TrieState.NewTrieState ∅)).

End Scenarios.

(** * Properties *)

(** ** ChangeTree *)

Module ChangeTreeFacts.

Import ChangeTree.

Section Facts.

Context {Hash : Type} `{EqDecision Hash} {ID E : Type}.

Implicit Types (ct : ChangeTree Hash ID) (pcn : PendingChangeNode Hash ID).
Implicit Types (isDescendentOf : IsDescendentOf Hash E).
Implicit Types (change : PendingChange Hash ID).

(** Induction over nodes with the hypothesis for all the children. *)
Lemma PendingChangeNode_ind' (P : PendingChangeNode Hash ID → Prop) :
  (∀ c cs, Forall P cs → P (Node c cs)) → ∀ n, P n.
Proof.
  intros step. fix rec 1. intros [c cs]. apply step.
  induction cs as [|x cs IH]; constructor; [apply rec | exact IH].
Qed.

(** A loop over nodes that did not import has written nothing, when that
    holds of the function it calls on each node. *)
Lemma importInto_frame (f : PendingChangeNode Hash ID → PendingChangeNode Hash ID * result Hash E bool)
    (nodes : list (PendingChangeNode Hash ID)) :
  Forall (λ n, (f n).2 ≠ Ok true → (f n).1 = n) nodes →
  (importInto f nodes).2 ≠ Some (Ok true) →
  (importInto f nodes).1 = nodes.
Proof.
  induction 1 as [|n nodes Hn _ IH]; [reflexivity|].
  cbn [importInto]. fold (importInto f).
  destruct (f n) as [n' r] eqn:Hf. cbn [fst snd] in Hn.
  destruct r as [[|]|e|msg]; cbn [fst snd].
  - intros Hne. contradict Hne. reflexivity.
  - destruct (importInto f nodes) as [rest' o]. cbn [fst snd] in *.
    intros Hne. rewrite Hn by discriminate. rewrite IH by exact Hne. reflexivity.
  - intros _. rewrite Hn by discriminate. reflexivity.
  - intros _. rewrite Hn by discriminate. reflexivity.
Qed.

(** [importNode] writes to the subtree only when it returns [true]. *)
Lemma importNode_frame (hash : Hash) (number : N) change isDescendentOf pcn :
  (importNode hash number change isDescendentOf pcn).2 ≠ Ok true →
  (importNode hash number change isDescendentOf pcn).1 = pcn.
Proof.
  induction pcn as [c cs IH] using PendingChangeNode_ind'.
  cbn [importNode]. fold (importNode hash number change isDescendentOf).
  destruct (decide (hash = CanonHash c)); [reflexivity|].
  destruct (isDescendentOf (CanonHash c) hash) as [e|[|]]; [reflexivity| |reflexivity].
  destruct (number <=? CanonHeight c); [reflexivity|].
  pose proof (importInto_frame (importNode hash number change isDescendentOf) cs IH) as Hloop.
  destruct (importInto (importNode hash number change isDescendentOf) cs) as [cs' o].
  cbn [fst snd] in Hloop.
  destruct o as [[b|e|msg]|]; cbn [fst snd]; intros Hne.
  - contradict Hne. reflexivity.
  - rewrite Hloop by discriminate. reflexivity.
  - rewrite Hloop by discriminate. reflexivity.
  - contradict Hne. reflexivity.
Qed.

(** [Import] that returns an error has not changed the tree. *)
Lemma Import_error_frame (hash : Hash) (number : N) change isDescendentOf ct e :
  (Import hash number change isDescendentOf ct).2 = Err e →
  (Import hash number change isDescendentOf ct).1 = ct.
Proof.
  unfold Import.
  pose proof (importInto_frame (importNode hash number change isDescendentOf) (TreeRoots ct)) as Hloop.
  destruct (importInto (importNode hash number change isDescendentOf) (TreeRoots ct)) as [roots' o].
  cbn [fst snd] in Hloop.
  destruct o as [[b|e'|msg]|]; cbn [fst snd]; intros Hr; try discriminate.
  rewrite Hloop; [destruct ct; reflexivity | | discriminate].
  apply Forall_forall. intros n _. apply importNode_frame.
Qed.

(** The errors of the oracle are the only ones the pruning loop returns. *)
Lemma pruneRoots_error (hash : Hash) (number : N) isDescendentOf
    (roots : list (PendingChangeNode Hash ID)) (didChange : bool) ct e :
  (pruneRoots hash number isDescendentOf roots didChange ct).2 = Err e →
  ¬ structural e.
Proof.
  revert didChange ct. induction roots as [|root rest IH]; intros didChange ct.
  - discriminate.
  - cbn [pruneRoots]. unfold retains.
    repeat match goal with
    | |- context [if ?b then _ else _] => destruct b
    | |- context [match isDescendentOf ?a ?b with _ => _ end] =>
        destruct (isDescendentOf a b) as [?|[|]]
    end; cbn [fst snd]; try apply IH; intros [= <-]; exact id.
Qed.

(** The search for the root to finalize fails with [errUnfinalisedAncestor]
    or with an error of the oracle, and does not panic. *)
Lemma checkChildren_not_panicked (hash : Hash) (number : N) isDescendentOf
    (children : list (PendingChangeNode Hash ID)) msg :
  checkChildren hash number isDescendentOf children ≠ Panicked msg.
Proof.
  induction children as [|child rest IH]; cbn [checkChildren]; [discriminate|].
  destruct (isDescendentOf _ hash); [discriminate|].
  destruct (_ && _); [discriminate | exact IH].
Qed.

(** The position found by the first loop is an index into the roots. *)
Lemma findPosition_bound (hash : Hash) (number : N) isDescendentOf
    (predicate : PendingChange Hash ID → bool)
    (roots : list (PendingChangeNode Hash ID)) (i pos : nat) :
  findPosition hash number isDescendentOf predicate roots i = Ok (Some pos) →
  (i ≤ pos < i + length roots)%nat.
Proof.
  revert i. induction roots as [|root rest IH]; intros i; cbn [findPosition length].
  - discriminate.
  - destruct (isDescendentOf _ hash); [discriminate|].
    destruct (_ && _).
    + destruct (checkChildren _ _ _ _); try discriminate. intros [= <-]. lia.
    + intros Hpos. apply IH in Hpos. lia.
Qed.

Lemma findPosition_not_panicked (hash : Hash) (number : N) isDescendentOf
    (predicate : PendingChange Hash ID → bool)
    (roots : list (PendingChangeNode Hash ID)) (i : nat) msg :
  findPosition hash number isDescendentOf predicate roots i ≠ Panicked msg.
Proof.
  revert i. induction roots as [|root rest IH]; intros i; cbn [findPosition].
  - discriminate.
  - destruct (isDescendentOf _ hash); [discriminate|].
    destruct (_ && _); [|apply IH].
    destruct (checkChildren hash number isDescendentOf (Children root)) eqn:Hc;
      try discriminate.
    by apply checkChildren_not_panicked in Hc.
Qed.

(** [swapRemove] at an index into the roots does not panic. *)
Lemma swapRemove_in_bounds (roots : list (PendingChangeNode Hash ID)) (index : nat) ct :
  (index < length roots)%nat →
  ∃ ct1 node, swapRemove (E := E) roots index ct = (ct1, Ok node) ∧
              roots !! index = Some node.
Proof.
  intros Hlt. unfold swapRemove.
  destruct (roots !! index) as [val|] eqn:Hval.
  - destruct (decide _); [by eexists _, _|].
    destruct (last roots) as [lastElem|] eqn:Hlast; [by eexists _, _|].
    apply last_None in Hlast. subst roots. by rewrite lookup_nil in Hval.
  - apply lookup_ge_None in Hval. lia.
Qed.

(** The pruning loop does not panic; when it visits a root and runs to its
    end, the best finalized number is [number]. *)
Lemma pruneRoots_not_panicked (hash : Hash) (number : N) isDescendentOf
    (roots : list (PendingChangeNode Hash ID)) (didChange : bool) ct msg :
  (pruneRoots hash number isDescendentOf roots didChange ct).2 ≠ Panicked msg.
Proof.
  revert didChange ct. induction roots as [|root rest IH]; intros didChange ct.
  - discriminate.
  - cbn [pruneRoots]. unfold retains.
    repeat match goal with
    | |- context [if ?b then _ else _] => destruct b
    | |- context [match isDescendentOf ?a ?b with _ => _ end] =>
        destruct (isDescendentOf a b) as [?|[|]]
    end; cbn [fst snd]; try apply IH; discriminate.
Qed.

Lemma pruneRoots_best (hash : Hash) (number : N) isDescendentOf
    (roots : list (PendingChangeNode Hash ID)) (didChange didChange' : bool) ct ct' :
  pruneRoots hash number isDescendentOf roots didChange ct = (ct', Ok didChange') →
  BestFinalizedNumber ct'
  = match roots with [] => BestFinalizedNumber ct | _ :: _ => Some number end.
Proof.
  revert didChange ct. induction roots as [|root rest IH]; intros didChange ct.
  - cbn [pruneRoots]. by intros [= <- _].
  - cbn [pruneRoots].
    destruct (retains hash number isDescendentOf root) as [retain| |]; try discriminate.
    intros Hrest. apply IH in Hrest. rewrite Hrest.
    destruct rest; [|reflexivity]. by destruct retain.
Qed.


(** When no root passes the search and the tree has a root, a finalization
    that returns without error leaves [number] as the best finalized
    number. *)
Lemma FinalizeWithDescendentIf_best_pruned (hash : Hash) (number : N) isDescendentOf
    (predicate : PendingChange Hash ID → bool) ct ct' (res : FinalizationResult) :
  findPosition hash number isDescendentOf predicate (Roots ct) 0 = Ok None →
  TreeRoots ct ≠ [] →
  FinalizeWithDescendentIf hash number isDescendentOf predicate ct = (ct', Ok res) →
  BestFinalizedNumber ct' = Some number.
Proof.
  intros Hpos Hroots. unfold FinalizeWithDescendentIf.
  destruct (reverts number ct); [discriminate|]. rewrite Hpos.
  match goal with
  | |- context [pruneRoots ?h ?n ?o ?rs ?d ?c] =>
      pose proof (pruneRoots_best h n o rs d) as Hp;
      destruct (pruneRoots h n o rs d c) as [ct2 [d'|e2|msg2]] eqn:Hprune
  end; try discriminate.
  specialize (Hp d' _ ct2 Hprune).
  intros Hres. assert (ct' = ct2) as -> by (by destruct d'; injection Hres).
  rewrite Hp. unfold Roots. cbn [TreeRoots setRoots].
  by destruct (TreeRoots ct).
Qed.

(** [FinalizeWithDescendentIf] returns its structural errors before its
    first write. *)
Lemma FinalizeWithDescendentIf_error_frame (hash : Hash) (number : N) isDescendentOf
    (predicate : PendingChange Hash ID → bool) ct e :
  structural e →
  (FinalizeWithDescendentIf hash number isDescendentOf predicate ct).2 = Err e →
  (FinalizeWithDescendentIf hash number isDescendentOf predicate ct).1 = ct.
Proof.
  intros Hs. unfold FinalizeWithDescendentIf.
  destruct (reverts number ct); [reflexivity|].
  destruct (findPosition hash number isDescendentOf predicate (Roots ct) 0)
    as [[pos|]|e'|msg]; [| |reflexivity|reflexivity].
  - unfold swapRemove.
    destruct (Roots ct !! pos) as [val|]; [|discriminate].
    destruct (decide _); [|destruct (last (Roots ct)); [|discriminate]].
    all: match goal with
         | |- context [pruneRoots ?h ?n ?o ?rs ?d ?c] =>
             pose proof (pruneRoots_error h n o rs d c) as Hp;
             destruct (pruneRoots h n o rs d c) as [ct2 [d'|e2|msg2]]
         end; cbn [fst snd] in *; try discriminate.
    all: intros [= <-]; destruct (Hp e2 eq_refl Hs).
  - match goal with
    | |- context [pruneRoots ?h ?n ?o ?rs ?d ?c] =>
        pose proof (pruneRoots_error h n o rs d c) as Hp;
        destruct (pruneRoots h n o rs d c) as [ct2 [[|]|e2|msg2]]
    end; cbn [fst snd] in *; try discriminate.
    intros [= <-]; destruct (Hp e2 eq_refl Hs).
Qed.

(** C10. [FinalizesAnyWithDescendentIf] is a query: whatever the hash, the
    number, the oracle and the predicate, and whatever it returns, the tree
    after the call (its roots and its best finalized number) is the tree
    before the call. *)
Theorem FinalizesAnyWithDescendentIf_pure (hash : Hash) (number : N) isDescendentOf
    (predicate : PendingChange Hash ID → bool) ct :
  (FinalizesAnyWithDescendentIf hash number isDescendentOf predicate ct).1 = ct.
Proof.
  unfold FinalizesAnyWithDescendentIf.
  destruct (reverts number ct); reflexivity.
Qed.

(** C8. Whenever [Import], [FinalizesAnyWithDescendentIf] or
    [FinalizeWithDescendentIf] returns one of the structural errors
    (duplicate hashes, revert, unfinalised ancestor), the tree after the
    call is exactly the tree before the call. *)
Theorem structural_errors_leave_tree (hash : Hash) (number : N) change isDescendentOf
    (predicate : PendingChange Hash ID → bool) ct e :
  structural e →
  ((Import hash number change isDescendentOf ct).2 = Err e →
   (Import hash number change isDescendentOf ct).1 = ct) ∧
  ((FinalizesAnyWithDescendentIf hash number isDescendentOf predicate ct).2 = Err e →
   (FinalizesAnyWithDescendentIf hash number isDescendentOf predicate ct).1 = ct) ∧
  ((FinalizeWithDescendentIf hash number isDescendentOf predicate ct).2 = Err e →
   (FinalizeWithDescendentIf hash number isDescendentOf predicate ct).1 = ct).
Proof.
  intros Hs. split; [|split].
  - apply Import_error_frame.
  - intros _. unfold FinalizesAnyWithDescendentIf.
    destruct (reverts number ct); reflexivity.
  - apply FinalizeWithDescendentIf_error_frame, Hs.
Qed.

(** [Import] has no guard on the best finalized number: it never returns
    the revert error. *)
Lemma importNode_never_reverts (hash : Hash) (number : N) change isDescendentOf pcn :
  (importNode hash number change isDescendentOf pcn).2 ≠ Err errRevert.
Proof.
  induction pcn as [c cs IH] using PendingChangeNode_ind'.
  cbn [importNode]. fold (importNode hash number change isDescendentOf).
  destruct (decide (hash = CanonHash c)); [discriminate|].
  destruct (isDescendentOf (CanonHash c) hash) as [e|[|]]; [discriminate| |discriminate].
  destruct (number <=? CanonHeight c); [discriminate|].
  assert ((importInto (importNode hash number change isDescendentOf) cs).2
          ≠ Some (Err errRevert)) as Hloop.
  { clear -IH. induction IH as [|n ns Hn _ IHns]; [discriminate|].
    cbn [importInto]. fold (importInto (importNode hash number change isDescendentOf)).
    destruct (importNode hash number change isDescendentOf n) as [n' r].
    cbn [snd] in Hn.
    destruct r as [[|]|e|msg]; cbn [snd]; try congruence.
    destruct (importInto _ ns) as [rest' o]. exact IHns. }
  destruct (importInto (importNode hash number change isDescendentOf) cs) as [cs' o].
  cbn [snd] in Hloop.
  destruct o as [[b|e|msg]|]; cbn [snd]; congruence.
Qed.

Lemma Import_never_reverts (hash : Hash) (number : N) change isDescendentOf ct :
  (Import hash number change isDescendentOf ct).2 ≠ Err errRevert.
Proof.
  unfold Import.
  assert ((importInto (importNode hash number change isDescendentOf) (TreeRoots ct)).2
          ≠ Some (Err errRevert)) as Hloop.
  { induction (TreeRoots ct) as [|n ns IHns]; [discriminate|].
    cbn [importInto]. fold (importInto (importNode hash number change isDescendentOf)).
    pose proof (importNode_never_reverts hash number change isDescendentOf n) as Hn.
    destruct (importNode hash number change isDescendentOf n) as [n' r].
    cbn [snd] in Hn.
    destruct r as [[|]|e|msg]; cbn [snd]; try congruence.
    destruct (importInto _ ns) as [rest' o]. exact IHns. }
  destruct (importInto (importNode hash number change isDescendentOf) (TreeRoots ct))
    as [roots' o].
  cbn [snd] in Hloop.
  destruct o as [[b|e|msg]|]; cbn [snd]; congruence.
Qed.

End Facts.

Import Scenarios.

(** At the duplicate import of [hA] and at the finalization at a height that
    was finalized before, a structural error is returned and the tree is
    the one before the call. *)
Lemma structural_errors_leave_tree_witness :
  (Import hA 11 (changeAt hA 11) descends treeA).1 = treeA ∧
  (FinalizeWithDescendentIf hB 10 descends always treeFinalizedA).1 = treeFinalizedA.
Proof.
  split.
  - apply (proj1 (structural_errors_leave_tree hA 11 (changeAt hA 11) descends always
                      treeA (errDuplicateHashes hA) I)).
    reflexivity.
  - apply (proj2 (proj2 (structural_errors_leave_tree hB 10 (changeAt hB 10) descends
                             always treeFinalizedA errRevert I))).
    reflexivity.
Defined.

(** C3 on the code.  [hA] at height 10 is finalized with success, so the
    best finalized number is 10; the import of [hC] at height 5 that follows
    does not fail with the revert error: it returns [true] and the tree has
    one more root. *)
Theorem Import_below_finalized_succeeds :
  (FinalizeWithDescendentIf hA 10 descends always treeAB).2
    = Ok (changed (Some (changeAt hA 10))) ∧
  BestFinalizedNumber treeFinalizedA = Some 10 ∧
  (Import hC 5 (changeAt hC 5) descends treeFinalizedA).2 = Ok true ∧
  TreeRoots (Import hC 5 (changeAt hC 5) descends treeFinalizedA).1
    = TreeRoots treeFinalizedA ++ [Node (changeAt hC 5) []].
Proof. repeat split. Qed.

(** C4 on the code.  On the empty tree the finalization of [hA] at height 10
    returns [unchanged] without error and leaves the best finalized number
    unset; on the tree whose single root [hA] (height 10) has no children,
    the finalization of its descendant [hB] at height 11 returns the change
    of [hA] and leaves the best finalized number at 10. *)
Theorem FinalizeWithDescendentIf_best_not_set :
  FinalizeWithDescendentIf hA 10 descends always emptyTree
    = (emptyTree, Ok unchanged) ∧
  BestFinalizedNumber emptyTree = None ∧
  (FinalizeWithDescendentIf hB 11 descends always treeA).2
    = Ok (changed (Some (changeAt hA 10))) ∧
  BestFinalizedNumber (FinalizeWithDescendentIf hB 11 descends always treeA).1
    = Some 10.
Proof. repeat split. Qed.

End ChangeTreeFacts.

(** ** LeafSet *)

Module LeafSetFacts.

Import LeafSet.

Section Facts.

Context {Hash : Type} `{EqDecision Hash}.
Variable maxNumber : N.

Implicit Types (ls : LeafSet Hash) (h hash parentHash : Hash) (n number : N).
Implicit Types (m : gmap N (list Hash)).

(** *** The walks of the ordered map *)

Lemma elem_of_scan {V : Type} (m : gmap N V) (k : N) (v : V) :
  (k, v) ∈ scan m ↔ m !! k = Some v.
Proof.
  unfold scan. rewrite merge_sort_Permutation. apply elem_of_map_to_list.
Qed.

Lemma elem_of_descending {V : Type} (m : gmap N V) (k : N) (v : V) :
  (k, v) ∈ descending m ↔ m !! k = Some v.
Proof. unfold descending. rewrite elem_of_reverse. apply elem_of_scan. Qed.

Lemma NoDup_descending_keys {V : Type} (m : gmap N V) : NoDup (descending m).*1.
Proof.
  unfold descending, scan.
  rewrite reverse_Permutation, merge_sort_Permutation.
  apply NoDup_fst_map_to_list.
Qed.

Lemma head_ascend_lookup {V : Type} (pivot : N) (m : gmap N V) (k : N) (v : V) :
  head (ascend pivot m) = Some (k, v) → m !! k = Some v ∧ pivot ≤ k.
Proof.
  intros Hhead. apply head_Some_elem_of in Hhead.
  unfold ascend in Hhead. apply list_elem_of_filter in Hhead as [Hle Hin].
  split; [by apply elem_of_scan | exact Hle].
Qed.

#[local]
Instance key_le_transitive {V : Type} : Transitive (@key_le V).
Proof. intros a b c. unfold key_le. lia. Qed.

#[local]
Instance key_le_total {V : Type} : Total (@key_le V).
Proof. intros a b. unfold key_le. lia. Qed.

Lemma StronglySorted_filter {A : Type} (R : relation A) (P : A → Prop)
    `{∀ x, Decision (P x)} (l : list A) :
  StronglySorted R l → StronglySorted R (filter P l).
Proof.
  induction 1 as [|x l _ IH Hx]; [constructor|].
  rewrite filter_cons. destruct (decide (P x)); [|exact IH].
  constructor; [exact IH|].
  apply Forall_forall. intros y [_ Hy]%list_elem_of_filter.
  by eapply Forall_forall in Hx.
Qed.

(** The walk from a pivot starts at the least key of the range. *)
Lemma head_ascend_least {V : Type} (pivot : N) (m : gmap N V) (k k' : N) (v v' : V) :
  head (ascend pivot m) = Some (k, v) →
  m !! k' = Some v' → pivot ≤ k' → k ≤ k'.
Proof.
  intros Hhead Hk' Hle.
  assert ((k', v') ∈ ascend pivot m) as Hin.
  { unfold ascend. apply list_elem_of_filter. split; [exact Hle | by apply elem_of_scan]. }
  assert (StronglySorted key_le (ascend pivot m)) as Hsorted.
  { unfold ascend, scan. apply StronglySorted_filter, StronglySorted_merge_sort; apply _. }
  apply head_Some in Hhead as [rest Hrest]. rewrite Hrest in Hin, Hsorted.
  apply StronglySorted_cons in Hsorted as [Hall _].
  apply elem_of_cons in Hin as [[= -> ->]|Hin]; [lia|].
  eapply Forall_forall in Hall; [|exact Hin]. exact Hall.
Qed.

Lemma descending_empty {V : Type} : descending (∅ : gmap N V) = [].
Proof. unfold descending, scan. rewrite map_to_list_empty. reflexivity. Qed.

Lemma descending_singleton {V : Type} (k : N) (v : V) :
  descending ({[ k := v ]} : gmap N V) = [(k, v)].
Proof. unfold descending, scan. rewrite map_to_list_singleton. reflexivity. Qed.

(** *** Leaves *)

Lemma filter_other_id (h : Hash) (l : list Hash) :
  h ∉ l → filter (λ x, x ≠ h) l = l.
Proof.
  induction l as [|x l IH]; [reflexivity|].
  intros Hnotin. apply not_elem_of_cons in Hnotin as [Hne Hl].
  rewrite filter_cons_True by congruence. by rewrite IH.
Qed.

Lemma elem_of_filter_other (h x : Hash) (l : list Hash) :
  x ∈ filter (λ y, y ≠ h) l ↔ x ≠ h ∧ x ∈ l.
Proof. exact (list_elem_of_filter (λ y, y ≠ h) l x). Qed.

(** [removeLeaf] reports whether the leaf was there. *)
Lemma removeLeaf_found n h ls : (removeLeaf n h ls).2 = Contains n h ls.
Proof.
  unfold removeLeaf, Contains. destruct (storage ls !! n); [|reflexivity].
  by destruct (_ && _).
Qed.

(** [removeLeaf] of a hash that is not a leaf changes nothing. *)
Lemma removeLeaf_absent n h ls : Contains n h ls = false → (removeLeaf n h ls).1 = ls.
Proof.
  unfold removeLeaf, Contains. destruct (storage ls !! n) as [l|] eqn:Hl; [|reflexivity].
  intros Hc. rewrite Hc. cbn [andb fst].
  apply bool_decide_eq_false in Hc.
  rewrite filter_other_id by exact Hc. rewrite insert_id by exact Hl.
  by destruct ls.
Qed.

Lemma Contains_removeLeaf n h ls n' h' :
  Contains n' h' (removeLeaf n h ls).1
  = Contains n' h' ls && negb (bool_decide (n' = n ∧ h' = h)).
Proof.
  unfold removeLeaf, Contains.
  destruct (storage ls !! n) as [l|] eqn:Hl; cbn [fst storage].
  - assert (∀ b : bool,
      storage (if b then {| storage := delete n (<[n:=filter (λ x, x ≠ h) l]> (storage ls)) |}
               else {| storage := <[n:=filter (λ x, x ≠ h) l]> (storage ls) |} : LeafSet Hash) !! n'
      = if decide (n' = n)
        then (if b then None else Some (filter (λ x, x ≠ h) l))
        else storage ls !! n') as Hst.
    { intros [|]; cbn [storage]; destruct (decide (n' = n)) as [->|Hne].
      - by rewrite lookup_delete_eq.
      - by rewrite lookup_delete_ne, lookup_insert_ne.
      - by rewrite lookup_insert_eq.
      - by rewrite lookup_insert_ne. }
    set (b := bool_decide (h ∈ l) && bool_decide (length (filter (λ x, x ≠ h) l) = 0%nat)).
    assert ((if b then ({| storage := delete n (<[n:=filter (λ x, x ≠ h) l]> (storage ls)) |}, bool_decide (h ∈ l))
             else ({| storage := <[n:=filter (λ x, x ≠ h) l]> (storage ls) |}, bool_decide (h ∈ l))).1
            = (if b then {| storage := delete n (<[n:=filter (λ x, x ≠ h) l]> (storage ls)) |}
               else {| storage := <[n:=filter (λ x, x ≠ h) l]> (storage ls) |} : LeafSet Hash)) as ->
      by (by destruct b).
    rewrite Hst. destruct (decide (n' = n)) as [->|Hne].
    + rewrite Hl. destruct b eqn:Hb.
      * apply andb_true_iff in Hb as [_ Hempty]. apply bool_decide_eq_true in Hempty.
        apply length_zero_iff_nil in Hempty.
        symmetry. apply andb_false_iff.
        destruct (decide (h' = h)) as [->|Hne'].
        -- right. rewrite bool_decide_eq_true_2; [reflexivity | done].
        -- left. apply bool_decide_eq_false. intros Hin.
           assert (h' ∈ filter (λ x, x ≠ h) l) as Hf by (by apply elem_of_filter_other).
           rewrite Hempty in Hf. by apply elem_of_nil in Hf.
      * destruct (decide (h' = h)) as [->|Hne'].
        -- rewrite (bool_decide_eq_true_2 (n = n ∧ h = h)) by done.
           rewrite andb_false_r. apply bool_decide_eq_false.
           rewrite elem_of_filter_other. tauto.
        -- rewrite (bool_decide_eq_false_2 (n = n ∧ h' = h)) by tauto.
           rewrite andb_true_r. apply bool_decide_ext.
           rewrite elem_of_filter_other. tauto.
    + rewrite (bool_decide_eq_false_2 (n' = n ∧ h' = h)) by tauto.
      by rewrite andb_true_r.
  - destruct (decide (n' = n)) as [->|Hne].
    + by rewrite Hl.
    + rewrite (bool_decide_eq_false_2 (n' = n ∧ h' = h)) by tauto.
      by rewrite andb_true_r.
Qed.

Lemma Contains_insertLeaf n h ls n' h' :
  Contains n' h' (insertLeaf n h ls)
  = Contains n' h' ls || bool_decide (n' = n ∧ h' = h).
Proof.
  unfold insertLeaf, Contains.
  destruct (storage ls !! n) as [l|] eqn:Hl; cbn [storage];
    destruct (decide (n' = n)) as [->|Hne].
  - rewrite lookup_insert_eq, Hl.
    destruct (decide (h' = h)) as [->|Hne'].
    + rewrite (bool_decide_eq_true_2 (n = n ∧ h = h)) by done.
      rewrite orb_true_r. apply bool_decide_eq_true.
      rewrite elem_of_app, list_elem_of_singleton. tauto.
    + rewrite (bool_decide_eq_false_2 (n = n ∧ h' = h)) by tauto.
      rewrite orb_false_r. apply bool_decide_ext.
      rewrite elem_of_app, list_elem_of_singleton. tauto.
  - rewrite lookup_insert_ne by done.
    rewrite (bool_decide_eq_false_2 (n' = n ∧ h' = h)) by tauto.
    by rewrite orb_false_r.
  - rewrite lookup_insert_eq, Hl.
    destruct (decide (h' = h)) as [->|Hne'].
    + rewrite (bool_decide_eq_true_2 (n = n ∧ h = h)) by done.
      apply bool_decide_eq_true. by apply list_elem_of_singleton.
    + rewrite (bool_decide_eq_false_2 (n = n ∧ h' = h)) by tauto.
      apply bool_decide_eq_false. by rewrite list_elem_of_singleton.
  - rewrite lookup_insert_ne by done.
    rewrite (bool_decide_eq_false_2 (n' = n ∧ h' = h)) by tauto.
    by rewrite orb_false_r.
Qed.

(** *** Import, Remove and their undo *)

(** Decide the comparisons of numbers and hashes in a goal on [Contains]. *)
Ltac leaf_cases :=
  rewrite ?Contains_removeLeaf, ?Contains_insertLeaf;
  repeat case_bool_decide; destruct_and?; simplify_eq;
  rewrite ?andb_true_r, ?andb_false_r, ?orb_true_r, ?orb_false_r;
  try done; try tauto; try lia.

(** [Remove] of a hash that is not a leaf returns [nil] and changes
    nothing. *)
Lemma Remove_absent hash number (parent : option Hash) ls :
  Contains number hash ls = false → Remove hash number parent ls = (ls, None).
Proof.
  intros Hc. unfold Remove.
  pose proof (removeLeaf_found number hash ls) as Hfound.
  pose proof (removeLeaf_absent number hash ls Hc) as Hsame.
  destruct (removeLeaf number hash ls) as [ls1 wasLeaf]. cbn [fst snd] in *.
  rewrite Hfound, Hc, Hsame. reflexivity.
Qed.

(** [Remove] of a leaf, without a parent or at a number above 0: the leaf
    is removed, the parent becomes a leaf one number below, and the outcome
    records both. *)
Lemma Remove_leaf hash number (parent : option Hash) ls :
  Contains number hash ls = true →
  (parent = None ∨ number ≠ 0) →
  ∃ ls', Remove hash number parent ls
         = (ls', Some {| ro_inserted := parent; ro_removed := mkItem hash number |}) ∧
         ∀ n h, Contains n h ls'
                = Contains n h ls && negb (bool_decide (n = number ∧ h = hash))
                  || bool_decide (n = number - 1 ∧ parent = Some h).
Proof.
  intros Hleaf Hcase. unfold Remove.
  pose proof (removeLeaf_found number hash ls) as Hfound.
  pose proof (Contains_removeLeaf number hash ls) as Hrem.
  destruct (removeLeaf number hash ls) as [ls1 wasLeaf].
  cbn [fst snd] in *. subst wasLeaf. rewrite Hleaf. cbn [negb].
  destruct parent as [p|].
  - destruct Hcase as [|Hpos]; [discriminate|].
    rewrite decide_True by exact Hpos.
    eexists. split; [reflexivity|]. intros n h.
    rewrite Contains_insertLeaf, Hrem. f_equal.
    apply bool_decide_ext. split; [intros [-> ->]; done | intros [-> [= ->]]; done].
  - eexists. split; [reflexivity|]. intros n h.
    rewrite Hrem, (bool_decide_eq_false_2 (n = number - 1 ∧ None = Some h)) by (intros [_ [=]]).
    by rewrite orb_false_r.
Qed.

(** [UndoImport] after [Import] of a block that was not a leaf: the same
    leaves as before. *)
Lemma UndoImport_Import hash number parentHash ls n h :
  Contains number hash ls = false →
  Contains n h
    (UndoImport maxNumber (Import hash number parentHash ls).2
       (Import hash number parentHash ls).1)
  = Contains n h ls.
Proof.
  intros Hnew. unfold Import.
  destruct (decide (number ≠ 0)) as [Hpos|Hzero].
  - pose proof (removeLeaf_found (number - 1) parentHash ls) as Hfound.
    pose proof (Contains_removeLeaf (number - 1) parentHash ls) as Hrem.
    destruct (removeLeaf (number - 1) parentHash ls) as [ls1 wasLeaf].
    cbn [fst snd] in *. subst wasLeaf.
    unfold UndoImport. cbn [io_removed io_inserted LeafSet.number LeafSet.hash].
    unfold sub1. rewrite decide_False by exact Hpos.
    destruct (Contains (number - 1) parentHash ls) eqn:Hparent.
    + rewrite Contains_removeLeaf, !Contains_insertLeaf, Hrem.
      leaf_cases; destruct (Contains n h ls); leaf_cases.
    + rewrite Contains_removeLeaf, !Contains_insertLeaf, Hrem.
      leaf_cases; destruct (Contains n h ls); leaf_cases.
  - unfold UndoImport. cbn [fst snd io_removed io_inserted LeafSet.number LeafSet.hash].
    rewrite Contains_removeLeaf, Contains_insertLeaf.
    leaf_cases; destruct (Contains n h ls); leaf_cases.
Qed.

(** [UndoRemove] after a [Remove] that returned an outcome, when the parent
    it was given was not a leaf: the same leaves as before. *)
Lemma UndoRemove_Remove hash number (parent : option Hash) ls ls' outcome n h :
  Remove hash number parent ls = (ls', Some outcome) →
  (∀ p, parent = Some p → Contains (number - 1) p ls = false) →
  Contains n h (UndoRemove maxNumber outcome ls') = Contains n h ls.
Proof.
  unfold Remove.
  pose proof (removeLeaf_found number hash ls) as Hfound.
  pose proof (Contains_removeLeaf number hash ls) as Hrem.
  destruct (removeLeaf number hash ls) as [ls1 wasLeaf].
  cbn [fst snd] in *. subst wasLeaf.
  destruct (Contains number hash ls) eqn:Hleaf; cbn [negb]; [|discriminate].
  destruct parent as [p|].
  - destruct (decide (number ≠ 0)) as [Hpos|Hzero]; [|discriminate].
    intros [= <- <-] Hparent. specialize (Hparent p eq_refl).
    unfold UndoRemove. cbn [ro_removed ro_inserted LeafSet.number LeafSet.hash].
    unfold sub1. rewrite decide_False by exact Hpos.
    rewrite Contains_insertLeaf, Contains_removeLeaf, Contains_insertLeaf, Hrem.
    leaf_cases; destruct (Contains n h ls); leaf_cases.
  - intros [= <- <-] _.
    unfold UndoRemove. cbn [ro_removed ro_inserted LeafSet.number LeafSet.hash].
    rewrite Contains_insertLeaf, Hrem.
    leaf_cases; destruct (Contains n h ls); leaf_cases.
Qed.

(** [UndoFinalization] after [FinalizeHeight]: the storage as before. *)
Lemma UndoFinalization_FinalizeHeight number ls :
  UndoFinalization (FinalizeHeight number ls).2 (FinalizeHeight number ls).1 = ls.
Proof.
  unfold FinalizeHeight, UndoFinalization.
  destruct (decide (number = 0)).
  - cbn [fst snd fo_removed]. rewrite descending_empty. reflexivity.
  - destruct (head (ascend (number - 1) (storage ls))) as [[k v]|] eqn:Hhead.
    + apply head_ascend_lookup in Hhead as [Hk _].
      cbn [fst snd fo_removed]. rewrite descending_singleton.
      cbn [foldl fst snd storage]. rewrite insert_delete_id by exact Hk.
      by destruct ls.
    + cbn [fst snd fo_removed]. rewrite descending_empty. reflexivity.
Qed.

(** [FinalizeHeight] removes one level at most, the least one from the
    boundary [number - 1] upwards; the levels below the boundary stay. *)
Lemma FinalizeHeight_keeps_below number ls k :
  k < number - 1 →
  storage (FinalizeHeight number ls).1 !! k = storage ls !! k.
Proof.
  intros Hlt. unfold FinalizeHeight.
  destruct (decide (number = 0)); [reflexivity|].
  destruct (head (ascend (number - 1) (storage ls))) as [[k0 v0]|] eqn:Hhead;
    [|reflexivity].
  apply head_ascend_lookup in Hhead as [_ Hle].
  cbn [fst storage]. apply lookup_delete_ne. lia.
Qed.

Lemma FinalizeHeight_removes_least number ls k hashes :
  storage ls !! k = Some hashes →
  storage (FinalizeHeight number ls).1 !! k = None →
  number ≠ 0 ∧ number - 1 ≤ k ∧
  fo_removed (FinalizeHeight number ls).2 = {[ k := hashes ]} ∧
  ∀ k' hashes', storage ls !! k' = Some hashes' → number - 1 ≤ k' → k ≤ k'.
Proof.
  unfold FinalizeHeight. intros Hk.
  destruct (decide (number = 0)); [cbn [fst]; congruence|].
  destruct (head (ascend (number - 1) (storage ls))) as [[k0 v0]|] eqn:Hhead;
    [|cbn [fst]; congruence].
  cbn [fst snd storage fo_removed]. intros Hgone.
  destruct (decide (k0 = k)) as [->|Hne]; [|rewrite lookup_delete_ne in Hgone; congruence].
  pose proof (head_ascend_lookup _ _ _ _ Hhead) as [Hv0 Hle].
  assert (v0 = hashes) as -> by congruence.
  repeat split; [done|exact Hle|].
  intros k' hashes' Hk' Hle'. by apply (head_ascend_least _ _ _ _ _ _ Hhead Hk').
Qed.

(** C6, amended.  [UndoImport] applied to the outcome of an [Import] of a
    block that was not already a leaf restores the leaves ([Contains]
    answers as before the [Import]); [UndoRemove] applied to the outcome of
    a [Remove] that returned one restores the leaves when the parent given
    to [Remove], if any, was not already a leaf; [UndoFinalization] applied
    to the outcome of a [FinalizeHeight] restores the storage. *)
Theorem undo_restores_leaves hash number parentHash (parent : option Hash) ls :
  (Contains number hash ls = false →
   ∀ n h,
     Contains n h
       (UndoImport maxNumber (Import hash number parentHash ls).2
          (Import hash number parentHash ls).1)
     = Contains n h ls) ∧
  (∀ ls' outcome,
     Remove hash number parent ls = (ls', Some outcome) →
     (∀ p, parent = Some p → Contains (number - 1) p ls = false) →
     ∀ n h, Contains n h (UndoRemove maxNumber outcome ls') = Contains n h ls) ∧
  UndoFinalization (FinalizeHeight number ls).2 (FinalizeHeight number ls).1 = ls.
Proof.
  split; [|split].
  - intros Hnew n h. by apply UndoImport_Import.
  - intros ls' outcome Hremove Hparent n h.
    by apply (UndoRemove_Remove hash number parent ls ls' outcome).
  - apply UndoFinalization_FinalizeHeight.
Qed.

(** *** No hash twice at a number *)

Lemma noDuplicates_insertLeaf n h ls :
  noDuplicates ls → Contains n h ls = false → noDuplicates (insertLeaf n h ls).
Proof.
  unfold noDuplicates, insertLeaf, Contains. intros Hnd Hc.
  destruct (storage ls !! n) as [l|] eqn:Hl; cbn [storage];
    apply map_Forall_insert_2; try exact Hnd.
  - apply NoDup_app. split; [exact (Hnd n l Hl)|]. split; [|apply NoDup_singleton].
    apply bool_decide_eq_false in Hc.
    intros x Hx ->%list_elem_of_singleton. by apply Hc.
  - apply NoDup_singleton.
Qed.

Lemma noDuplicates_removeLeaf n h ls :
  noDuplicates ls → noDuplicates (removeLeaf n h ls).1.
Proof.
  unfold noDuplicates, removeLeaf. intros Hnd.
  destruct (storage ls !! n) as [l|] eqn:Hl; [|exact Hnd].
  assert (map_Forall (λ _ hashes, NoDup hashes)
            (<[n:=filter (λ x, x ≠ h) l]> (storage ls))) as Hins.
  { apply map_Forall_insert_2; [|exact Hnd]. apply NoDup_filter, (Hnd n l Hl). }
  destruct (_ && _); cbn [fst storage]; [by apply map_Forall_delete | exact Hins].
Qed.

Lemma noDuplicates_FinalizeHeight number ls :
  noDuplicates ls → noDuplicates (FinalizeHeight number ls).1.
Proof.
  unfold noDuplicates, FinalizeHeight. intros Hnd.
  destruct (decide (number = 0)); [exact Hnd|].
  destruct (head (ascend (number - 1) (storage ls))) as [[k v]|]; [|exact Hnd].
  cbn [fst storage]. by apply map_Forall_delete.
Qed.

Lemma noDuplicates_restore (l : list (N * list Hash)) ls :
  noDuplicates ls → Forall (λ kv, NoDup kv.2) l →
  noDuplicates (foldl (λ acc kv, {| storage := <[kv.1 := kv.2]> (storage acc) |}) ls l).
Proof.
  intros Hnd Hl. revert ls Hnd.
  induction Hl as [|kv l Hkv _ IH]; intros ls Hnd; [exact Hnd|].
  cbn [foldl]. apply IH. unfold noDuplicates. cbn [storage].
  by apply map_Forall_insert_2.
Qed.

Lemma noDuplicates_UndoFinalization (outcome : FinalizationOutcome Hash) ls :
  noDuplicates ls →
  map_Forall (λ _ hashes, NoDup hashes) (fo_removed outcome) →
  noDuplicates (UndoFinalization outcome ls).
Proof.
  intros Hnd Hout. unfold UndoFinalization. apply noDuplicates_restore; [exact Hnd|].
  apply Forall_forall. intros [k v] Hin%elem_of_descending. exact (Hout k v Hin).
Qed.

(** The items collected by [Revert] are leaves, each of them once. *)
Lemma items_contained ls (hn : leafSetItem Hash) :
  hn ∈ items ls → Contains (LeafSet.number hn) (LeafSet.hash hn) ls = true.
Proof.
  unfold items. intros ([k v] & Hhn & Hkv)%list_elem_of_bind.
  apply list_elem_of_fmap in Hhn as (h & -> & Hh).
  apply elem_of_descending in Hkv. cbn [fst snd] in *.
  unfold Contains. cbn [LeafSet.number LeafSet.hash]. rewrite Hkv.
  by apply bool_decide_eq_true.
Qed.

Lemma items_NoDup ls : noDuplicates ls → NoDup (items ls).
Proof.
  intros Hnd. unfold items. apply NoDup_bind.
  - intros [k1 v1] [k2 v2] hn Hin1 Hin2 Hhn1 Hhn2. cbn [fst snd] in *.
    apply list_elem_of_fmap in Hhn1 as (h1 & -> & Hh1).
    apply list_elem_of_fmap in Hhn2 as (h2 & [= <- <-] & Hh2).
    apply elem_of_descending in Hin1, Hin2. congruence.
  - intros [k v] Hin%elem_of_descending. cbn [fst snd].
    apply NoDup_fmap_2_strong; [|exact (Hnd k v Hin)].
    intros h1 h2 _ _ [=]. done.
  - apply (NoDup_fmap_1 fst), NoDup_descending_keys.
Qed.

(** The loop of [Revert] over leaves, each of them once, does not panic
    and brings no hash twice. *)
Lemma dropAbove_noDuplicates bestNumber (hns : list (leafSetItem Hash)) ls :
  NoDup hns →
  (∀ hn, hn ∈ hns → Contains (LeafSet.number hn) (LeafSet.hash hn) ls = true) →
  noDuplicates ls →
  ∃ ls', dropAbove bestNumber hns ls = Some ls' ∧ noDuplicates ls'.
Proof.
  intros Hnd. revert ls. induction Hnd as [|hn rest Hnotin _ IH]; intros ls Hin Hls.
  - by exists ls.
  - cbn [dropAbove]. destruct (decide (bestNumber < LeafSet.number hn)).
    + pose proof (removeLeaf_found (LeafSet.number hn) (LeafSet.hash hn) ls) as Hfound.
      pose proof (Contains_removeLeaf (LeafSet.number hn) (LeafSet.hash hn) ls) as Hrem.
      pose proof (noDuplicates_removeLeaf (LeafSet.number hn) (LeafSet.hash hn) ls Hls) as Hls1.
      destruct (removeLeaf (LeafSet.number hn) (LeafSet.hash hn) ls) as [ls1 wasLeaf].
      cbn [fst snd] in *. rewrite Hfound, (Hin hn) by apply list_elem_of_here.
      apply IH; [|exact Hls1].
      intros hn' Hhn'. rewrite Hrem, (Hin hn') by by apply list_elem_of_further.
      rewrite bool_decide_eq_false_2; [reflexivity|].
      intros [Hn Hh]. apply Hnotin.
      destruct hn, hn'. cbn in Hn, Hh. by subst.
    + apply IH; [|exact Hls]. intros hn' Hhn'. apply Hin. by apply list_elem_of_further.
Qed.

Lemma noDuplicates_Revert bestHash bestNumber ls :
  noDuplicates ls →
  ∃ ls', Revert bestHash bestNumber ls = Some ls' ∧ noDuplicates ls'.
Proof.
  intros Hls. unfold Revert.
  destruct (dropAbove_noDuplicates bestNumber (items ls) ls) as (ls1 & -> & Hls1);
    [by apply items_NoDup | apply items_contained | exact Hls |].
  destruct (Contains bestNumber bestHash ls1) eqn:Hbest; cbn [negb].
  - by exists ls1.
  - eexists. split; [reflexivity|]. by apply noDuplicates_insertLeaf.
Qed.

(** An operation that inserts no leaf a second time does not panic and
    keeps every hash at most once at its number. *)
Lemma step_noDuplicates (op : Op Hash) ls :
  noDuplicates ls → insertsNew maxNumber op ls = true →
  ∃ ls', step maxNumber op ls = Some ls' ∧ noDuplicates ls'.
Proof.
  intros Hls Hnew.
  destruct op as [hash number parentHash|hash number parent|number|bestHash bestNumber
                  |outcome|outcome|outcome]; cbn [step insertsNew] in *.
  - eexists. split; [reflexivity|]. apply negb_true_iff in Hnew.
    unfold Import. destruct (decide (number ≠ 0)) as [Hpos|Hzero].
    + pose proof (Contains_removeLeaf (number - 1) parentHash ls number hash) as Hrem.
      pose proof (noDuplicates_removeLeaf (number - 1) parentHash ls Hls) as Hls1.
      destruct (removeLeaf (number - 1) parentHash ls) as [ls1 wasLeaf].
      cbn [fst snd] in *. apply noDuplicates_insertLeaf; [exact Hls1|].
      by rewrite Hrem, Hnew.
    + cbn [fst]. by apply noDuplicates_insertLeaf.
  - eexists. split; [reflexivity|]. unfold Remove.
    pose proof (removeLeaf_found number hash ls) as Hfound.
    pose proof (Contains_removeLeaf number hash ls) as Hrem.
    pose proof (noDuplicates_removeLeaf number hash ls Hls) as Hls1.
    destruct (removeLeaf number hash ls) as [ls1 wasLeaf].
    cbn [fst snd] in *. subst wasLeaf.
    destruct (Contains number hash ls); cbn [negb fst]; [|exact Hls1].
    destruct parent as [p|]; [|exact Hls1].
    destruct (decide (number ≠ 0)) as [Hpos|Hzero]; [|exact Hls1].
    cbn [fst]. rewrite bool_decide_eq_true_2 in Hnew by exact Hpos.
    cbn [andb] in Hnew. apply negb_true_iff in Hnew.
    apply noDuplicates_insertLeaf; [exact Hls1|]. by rewrite Hrem, Hnew.
  - eexists. split; [reflexivity|]. by apply noDuplicates_FinalizeHeight.
  - by apply noDuplicates_Revert.
  - eexists. split; [reflexivity|]. unfold UndoImport.
    destruct (io_removed outcome) as [removed|].
    + apply negb_true_iff in Hnew.
      by apply noDuplicates_removeLeaf, noDuplicates_insertLeaf.
    + by apply noDuplicates_removeLeaf.
  - eexists. split; [reflexivity|]. unfold UndoRemove.
    apply negb_true_iff in Hnew. apply noDuplicates_insertLeaf; [|exact Hnew].
    destruct (ro_inserted outcome); [by apply noDuplicates_removeLeaf | exact Hls].
  - eexists. split; [reflexivity|]. apply bool_decide_eq_true in Hnew.
    by apply noDuplicates_UndoFinalization.
Qed.

Lemma run_noDuplicates (ops : list (Op Hash)) ls :
  noDuplicates ls → allInsertNew maxNumber ops ls = true →
  ∃ ls', run maxNumber ops ls = Some ls' ∧ noDuplicates ls'.
Proof.
  revert ls. induction ops as [|op rest IH]; intros ls Hls Hnew.
  - by exists ls.
  - cbn [run allInsertNew] in *. apply andb_true_iff in Hnew as [Hop Hrest].
    destruct (step_noDuplicates op ls Hls Hop) as (ls1 & Hstep & Hls1).
    rewrite Hstep in *. by apply IH.
Qed.


End Facts.

Import Scenarios.

(** Over the single leaf 100 at number 1: the import of 200 on top of 100
    and the removal of 100 with the parent 10 are undone, and so is the
    finalization of height 2. *)
Lemma undo_restores_leaves_witness :
  (∀ n h,
     Contains n h
       (UndoImport maxUint32 (Import 200%nat 2 100%nat leavesOne).2
          (Import 200%nat 2 100%nat leavesOne).1)
     = Contains n h leavesOne) ∧
  (∀ n h,
     Contains n h
       (UndoRemove maxUint32
          {| ro_inserted := Some 10%nat; ro_removed := mkItem 100%nat 1 |}
          (Remove 100%nat 1 (Some 10%nat) leavesOne).1)
     = Contains n h leavesOne) ∧
  UndoFinalization (FinalizeHeight 2 leavesOne).2 (FinalizeHeight 2 leavesOne).1
  = leavesOne.
Proof.
  split; [|split].
  - apply (proj1 (undo_restores_leaves maxUint32 200%nat 2 100%nat None leavesOne)).
    reflexivity.
  - apply (proj1 (proj2 (undo_restores_leaves maxUint32 100%nat 1 10%nat (Some 10%nat)
                           leavesOne))).
    + reflexivity.
    + intros p [= <-]. reflexivity.
  - apply (proj2 (proj2 (undo_restores_leaves maxUint32 200%nat 2 100%nat None leavesOne))).
Defined.

(** C6 as stated fails: the block 100 is a leaf at number 1, it is imported
    once more and the import is undone; 100 is no longer a leaf. *)
Lemma UndoImport_not_inverse :
  Contains 1 100%nat leavesOne = true ∧
  Contains 1 100%nat
    (UndoImport maxUint32 (Import 100%nat 1 10%nat leavesOne).2
       (Import 100%nat 1 10%nat leavesOne).1) = false ∧
  UndoImport maxUint32 (Import 100%nat 1 10%nat leavesOne).2
    (Import 100%nat 1 10%nat leavesOne).1 ≠ leavesOne.
Proof.
  split; [reflexivity|]. split; [reflexivity|].
  intros Heq. apply (f_equal (Contains 1 100%nat)) in Heq. discriminate Heq.
Qed.

(** C7 on the code.  The block 7 is the leaf at number 0; [Remove] with a
    parent hash removes it and returns [nil]. *)
Theorem Remove_at_zero_returns_nil :
  Contains 0 7%nat leavesGenesis = true ∧
  (Remove 7%nat 0 (Some 3%nat) leavesGenesis).2 = None ∧
  Contains 0 7%nat (Remove 7%nat 0 (Some 3%nat) leavesGenesis).1 = false ∧
  (Remove 7%nat 0 (Some 3%nat) leavesGenesis).1 ≠ leavesGenesis.
Proof.
  split; [reflexivity|]. split; [reflexivity|]. split; [reflexivity|].
  intros Heq. apply (f_equal (Contains 0 7%nat)) in Heq. discriminate Heq.
Qed.

(** C2 on the code.  With a leaf at number 5 and a leaf at number 12,
    [FinalizeHeight 11] removes the level 12, the first one from the
    boundary 10 upwards, and leaves the level 5 in place. *)
Theorem FinalizeHeight_takes_first_from_boundary :
  Hashes leavesLowHigh = [200%nat; 100%nat] ∧
  fo_removed (FinalizeHeight 11 leavesLowHigh).2 = {[ 12 := [200%nat] ]} ∧
  Contains 12 200%nat (FinalizeHeight 11 leavesLowHigh).1 = false ∧
  Contains 5 100%nat (FinalizeHeight 11 leavesLowHigh).1 = true.
Proof. repeat split. Qed.



End LeafSetFacts.

(** ** TrieState *)

Module TrieStateFacts.

Import TrieState.

(** The map trie is a trie. *)
#[global]
Instance mapTrie_laws : TrieLaws (gmap string string).
Proof.
  split.
  - intros t k v k'. cbn. destruct (decide (k = k')) as [->|Hne].
    + by rewrite lookup_insert_eq.
    + by rewrite lookup_insert_ne.
  - intros t k k'. cbn. destruct (decide (k = k')) as [->|Hne].
    + by rewrite lookup_delete_eq.
    + by rewrite lookup_delete_ne.
Qed.

(** *** The binary search on sorted keys *)

Lemma ltb_not_le (s t : string) : String.ltb s t = true ↔ ¬ String.le t s.
Proof.
  unfold String.le, String.ltb, String.leb. rewrite (String.compare_antisym s t).
  destruct (String.compare t s); cbn.
  - split; [discriminate|]. intros Hn. by destruct Hn.
  - split; [discriminate|]. intros Hn. by destruct Hn.
  - split; [|done]. intros _ Hn. exact Hn.
Qed.

Lemma sorted_lookup_le (x : list string) (p q : nat) (a b : string) :
  StronglySorted String.le x → (p ≤ q)%nat →
  x !! p = Some a → x !! q = Some b → String.le a b.
Proof.
  intros Hs. revert p q. induction Hs as [|y l _ IH Hy]; intros p q Hpq Ha Hb.
  - by rewrite lookup_nil in Ha.
  - destruct p as [|p], q as [|q]; cbn in Ha, Hb; simplify_eq.
    + reflexivity.
    + eapply Forall_forall in Hy; [exact Hy|]. by eapply list_elem_of_lookup_2.
    + lia.
    + apply (IH p q); [lia|done..].
Qed.

Lemma half_between (i j : nat) : (i < j)%nat → (i ≤ (i + j) / 2 < j)%nat.
Proof.
  intros Hlt. split.
  - apply Nat.div_le_lower_bound; lia.
  - apply Nat.Div0.div_lt_upper_bound. lia.
Qed.

Lemma searchLoop_lower_bound (x : list string) (target : string) :
  StronglySorted String.le x →
  ∀ (steps i j : nat),
    (i ≤ j ≤ length x)%nat → (j - i < steps)%nat →
    (∀ p s, (p < i)%nat → x !! p = Some s → String.ltb s target = true) →
    (∀ p s, (j ≤ p)%nat → x !! p = Some s → String.ltb s target = false) →
    (∀ p s, (p < searchLoop steps x target i j)%nat → x !! p = Some s →
            String.ltb s target = true) ∧
    (∀ p s, (searchLoop steps x target i j ≤ p)%nat → x !! p = Some s →
            String.ltb s target = false).
Proof.
  intros Hs. induction steps as [|steps IH]; intros i j Hij Hsteps Hlow Hhigh; [lia|].
  cbn [searchLoop]. destruct (i <? j)%nat eqn:Hlt.
  - apply Nat.ltb_lt in Hlt. pose proof (half_between i j Hlt) as Hh.
    destruct (lookup_lt_is_Some_2 x ((i + j) / 2)) as [s Hsome]; [lia|].
    rewrite (nth_lookup_Some _ _ _ _ Hsome).
    destruct (String.ltb s target) eqn:Hcmp.
    + apply IH; [lia|lia| |exact Hhigh].
      intros p s' Hp Hs'. apply ltb_not_le. intros Hle.
      apply ltb_not_le in Hcmp. apply Hcmp. etrans; [exact Hle|].
      apply (sorted_lookup_le x p ((i + j) / 2)); [done|lia|done..].
    + apply IH; [lia|lia|exact Hlow|].
      intros p s' Hp Hs'. apply not_true_iff_false. intros Hlt'%ltb_not_le.
      apply not_true_iff_false in Hcmp. apply Hcmp, ltb_not_le. intros Hle.
      apply Hlt'. etrans; [exact Hle|].
      apply (sorted_lookup_le x ((i + j) / 2) p); [done|lia|done..].
  - apply Nat.ltb_ge in Hlt. assert (i = j) as -> by lia. by split.
Qed.

(** On sorted keys the search returns the first position whose key is not
    below the target: the steps given to the loop are enough. *)
Lemma BinarySearch_lower_bound (x : list string) (target : string) :
  StronglySorted String.le x →
  (∀ p s, (p < (BinarySearch x target).1)%nat → x !! p = Some s →
          String.ltb s target = true) ∧
  (∀ p s, ((BinarySearch x target).1 ≤ p)%nat → x !! p = Some s →
          String.ltb s target = false).
Proof.
  intros Hs. unfold BinarySearch. cbn [fst].
  apply searchLoop_lower_bound; [exact Hs|lia|lia|intros; lia|].
  intros p s Hp Hlookup%lookup_lt_Some. lia.
Qed.

Section Facts.

Context {T : Type} {trie : Trie T} {laws : TrieLaws T}.

Implicit Types (t : TrieState T) (cs : storageDiff) (ws : list write) (w : write).

(** Membership in the sets of deleted keys. *)
Ltac sets :=
  rewrite ?elem_of_union, ?elem_of_difference, ?elem_of_singleton, ?elem_of_empty;
  intuition congruence.

(** *** Writes under an open transaction *)

Lemma snapshot_copy cs : snapshot cs = cs.
Proof. by destruct cs. Qed.

(** With a transaction open, the writes reach the innermost diff only. *)
Lemma performAll_open ws t cs (outer : list storageDiff) :
  transactions t = cs :: outer →
  performAll ws t
  = {| state := state t; transactions := foldl (λ d w, record w d) cs ws :: outer;
       sortedKeys := sortedKeys t |}.
Proof.
  revert t cs. induction ws as [|w ws IH]; intros t cs Ht.
  - cbn [performAll foldl]. destruct t. cbn in Ht. by subst.
  - unfold performAll in *. cbn [foldl].
    assert (perform w t
            = {| state := state t; transactions := record w cs :: outer;
                 sortedKeys := sortedKeys t |}) as ->.
    { destruct w; cbn [perform record]; unfold Put, Delete, getCurrentTransaction, onCurrent;
        by rewrite Ht. }
    by rewrite (IH _ (record w cs)).
Qed.

(** *** Writes on the trie *)

Lemma transactions_foldl_add (keys : list string) t :
  transactions (foldl (λ acc k, addMainTrieSortedKey k acc) t keys) = transactions t ∧
  state (foldl (λ acc k, addMainTrieSortedKey k acc) t keys) = state t.
Proof. revert t. induction keys as [|k keys IH]; intros t; [done|]. cbn [foldl]. by rewrite !(proj1 (IH _)), !(proj2 (IH _)). Qed.

Lemma transactions_foldl_remove (keys : list string) t :
  transactions (foldl (λ acc k, removeMainTrieSortedKey k acc) t keys) = transactions t ∧
  state (foldl (λ acc k, removeMainTrieSortedKey k acc) t keys) = state t.
Proof. revert t. induction keys as [|k keys IH]; intros t; [done|]. cbn [foldl]. by rewrite !(proj1 (IH _)), !(proj2 (IH _)). Qed.

(** The trie after a diff was applied reads as the diff laid over it. *)
Lemma trie_get_applyToTrie cs (s : T) key :
  trie_get (applyToTrie cs s) key = overlay trie_stored cs (trie_get s) key.
Proof.
  unfold applyToTrie, overlay.
  assert (∀ key, trie_get (map_fold (λ k v acc, trie_put acc k v) s (upserts cs)) key
          = match upserts cs !! key with
            | Some value => trie_stored value
            | None => trie_get s key
            end) as Hputs.
  { clear key. apply (map_fold_weak_ind
      (λ r (m : gmap string bytes), ∀ key,
         trie_get r key = match m !! key with
                          | Some value => trie_stored value
                          | None => trie_get s key
                          end)).
    - intros key. by rewrite lookup_empty.
    - intros k v m r _ IH key. rewrite trie_get_put.
      destruct (decide (k = key)) as [->|Hne].
      + by rewrite lookup_insert_eq.
      + by rewrite lookup_insert_ne, IH. }
  revert key.
  pose (P := λ (r : T) (X : gset string), ∀ key : string,
       trie_get r key = if decide (key ∈ X) then None
                        else match upserts cs !! key with
                             | Some value => trie_stored value
                             | None => trie_get s key
                             end).
  apply (set_fold_ind_L P); unfold P; clear P.
  - intros key. rewrite decide_False by sets. apply Hputs.
  - intros k X r Hk IH key. rewrite trie_get_delete.
    destruct (decide (k = key)) as [->|Hne].
    + rewrite decide_True by sets. reflexivity.
    + rewrite IH. destruct (decide (key ∈ X)).
      * rewrite decide_True by sets. reflexivity.
      * rewrite decide_False by sets. reflexivity.
Qed.

(** A write recorded in a diff reads as the same write on the trie. *)
Lemma overlay_record w cs (base : string → bytes) key :
  overlay trie_stored (record w cs) base key
  = match w with
    | WPut k v => if decide (k = key) then trie_stored v else overlay trie_stored cs base key
    | WDelete k => if decide (k = key) then None else overlay trie_stored cs base key
    end.
Proof.
  unfold overlay. destruct w as [k v|k]; cbn [record upsert delete upserts deletes].
  - destruct (decide (k = key)) as [->|Hne].
    + rewrite decide_False by sets. by rewrite lookup_insert_eq.
    + rewrite lookup_insert_ne by done.
      destruct (decide (key ∈ deletes cs)).
      * rewrite decide_True by sets. reflexivity.
      * rewrite decide_False by sets. reflexivity.
  - destruct (decide (k = key)) as [->|Hne].
    + rewrite decide_True by sets. reflexivity.
    + rewrite lookup_delete_ne by done.
      destruct (decide (key ∈ deletes cs)).
      * rewrite decide_True by sets. reflexivity.
      * rewrite decide_False by sets. reflexivity.
Qed.

(** Without a transaction, the writes reach the trie, and no transaction
    is opened. *)
Lemma perform_closed w t :
  transactions t = [] →
  transactions (perform w t) = [] ∧
  ∀ key, trie_get (state (perform w t)) key
         = match w with
           | WPut k v => if decide (k = key) then trie_stored v else trie_get (state t) key
           | WDelete k => if decide (k = key) then None else trie_get (state t) key
           end.
Proof.
  intros Ht. destruct w as [k v|k]; cbn [perform]; unfold Put, Delete, getCurrentTransaction;
    rewrite Ht; cbn [head]; (split; [reflexivity|]); intros key;
    cbn [state addMainTrieSortedKey removeMainTrieSortedKey].
  - apply trie_get_put.
  - apply trie_get_delete.
Qed.

(** The writes recorded in a diff and applied at the commit read as the
    same writes made on the trie one by one. *)
Lemma overlay_performAll ws cs t (base : string → bytes) :
  transactions t = [] →
  (∀ key, overlay trie_stored cs base key = trie_get (state t) key) →
  transactions (performAll ws t) = [] ∧
  ∀ key, overlay trie_stored (foldl (λ d w, record w d) cs ws) base key
         = trie_get (state (performAll ws t)) key.
Proof.
  revert cs t. induction ws as [|w ws IH]; intros cs t Ht Hview; [done|].
  unfold performAll in *. cbn [foldl].
  destruct (perform_closed w t Ht) as [Ht1 Hget].
  apply IH; [exact Ht1|].
  intros key. rewrite overlay_record, Hget.
  destruct w; by rewrite Hview.
Qed.

Lemma Get_closed t key : transactions t = [] → Get key t = trie_get (state t) key.
Proof. intros Ht. unfold Get, getCurrentTransaction. by rewrite Ht. Qed.

(** *** Rollback and commit *)

(** The writes of a transaction that is rolled back leave the state as it
    was before the transaction was started. *)
Lemma rollback_restores ws t :
  RollbackTransaction (performAll ws (StartTransaction t)) = Some t.
Proof.
  rewrite (performAll_open ws (StartTransaction t) _ (transactions t) eq_refl).
  unfold RollbackTransaction. cbn [transactions state sortedKeys StartTransaction].
  by destruct t.
Qed.

(** Under an outer transaction, the commit leaves the state that the
    writes make without the inner transaction. *)
Lemma commit_nested ws t cs (outer : list storageDiff) :
  transactions t = cs :: outer →
  CommitTransaction (performAll ws (StartTransaction t)) = Some (performAll ws t).
Proof.
  intros Ht.
  rewrite (performAll_open ws (StartTransaction t) _ (transactions t) eq_refl).
  rewrite (performAll_open ws t cs outer Ht).
  unfold CommitTransaction, StartTransaction, getCurrentTransaction.
  cbn [transactions state sortedKeys]. rewrite Ht. cbn [head].
  by rewrite snapshot_copy.
Qed.

(** The commit of the only transaction leaves a trie that reads as the
    trie on which the writes were made one by one. *)
Lemma commit_last ws t :
  transactions t = [] →
  ∃ t2, CommitTransaction (performAll ws (StartTransaction t)) = Some t2 ∧
        transactions t2 = [] ∧
        ∀ key, trie_get (state t2) key = trie_get (state (performAll ws t)) key.
Proof.
  intros Ht.
  rewrite (performAll_open ws (StartTransaction t) _ (transactions t) eq_refl).
  unfold CommitTransaction, StartTransaction, getCurrentTransaction.
  cbn [transactions state sortedKeys]. rewrite Ht. cbn [head].
  eexists. split; [reflexivity|].
  rewrite (proj1 (transactions_foldl_remove _ _)), (proj2 (transactions_foldl_remove _ _)).
  rewrite (proj1 (transactions_foldl_add _ _)), (proj2 (transactions_foldl_add _ _)).
  cbn [transactions state]. split; [reflexivity|].
  intros key. rewrite trie_get_applyToTrie.
  apply (overlay_performAll ws (snapshot newStorageDiff) t (trie_get (state t)) Ht).
  intros key'. unfold overlay. cbn [snapshot newStorageDiff deletes upserts].
  rewrite decide_False by sets. by rewrite lookup_empty.
Qed.


End Facts.

Import Scenarios.

Local Open Scope string_scope.


(** The fourth scenario of the specification: nested transactions over the
    empty trie. *)
Example nested_transactions :
  let t1 := Put "a" (Some "1") (NewTrieState (∅ : gmap string string)) in
  let t2 := Put "a" (Some "2") (StartTransaction t1) in
  let t3 := Delete "a" (StartTransaction t2) in
  Get "a" t3 = None ∧
  Get "a" <$> RollbackTransaction t3 = Some (Some "2") ∧
  Get "a" <$> (RollbackTransaction t3 ≫= CommitTransaction) = Some (Some "2").
Proof. repeat split. Qed.

(** C5 on the code.  The keys [a] and [b] are committed and the open
    transaction has overwritten [a]: [a] is in the sorted keys of the state
    and in those of the diff, and [NextKey] of [a] returns [a], not [b]. *)
Theorem NextKey_returns_its_argument :
  sortedKeys overwrittenA = ["a"; "b"] ∧
  diffSortedKeys <$> getCurrentTransaction overwrittenA = Some ["a"] ∧
  deletes <$> getCurrentTransaction overwrittenA = Some ∅ ∧
  Get "a" overwrittenA = Some "2" ∧
  Get "b" overwrittenA = Some "1" ∧
  NextKey "a" overwrittenA = Some "a".
Proof. repeat split. Qed.

End TrieStateFacts.

(** ** ChangeTree: imports, finalization and the shape of the forest *)

Module ChangeTreeMore.

Import ChangeTree ChangeTreeFacts.

Section More.

Context {Hash : Type} `{EqDecision Hash} {ID E : Type}.

Implicit Types (ct : ChangeTree Hash ID) (pcn : PendingChangeNode Hash ID).
Implicit Types (isDescendentOf : IsDescendentOf Hash E).
Implicit Types (change : PendingChange Hash ID).
Implicit Types (nodes : list (PendingChangeNode Hash ID)).

(** *** The import loop *)

Lemma importNode_unfold (hash : Hash) (number : N) change isDescendentOf
    (c : PendingChange Hash ID) (children : list (PendingChangeNode Hash ID)) :
  importNode hash number change isDescendentOf (Node c children)
  = if decide (hash = CanonHash c) then (Node c children, Err (errDuplicateHashes hash))
    else
      match isDescendentOf (CanonHash c) hash with
      | inl e => (Node c children, Err (errAncestry e))
      | inr false => (Node c children, Ok false)
      | inr true =>
          if number <=? CanonHeight c then (Node c children, Ok false)
          else
            match importInto (importNode hash number change isDescendentOf) children with
            | (children', Some (Ok _)) => (Node c children', Ok true)
            | (children', Some r) => (Node c children', r)
            | (children', None) => (Node c (children' ++ [Node change []]), Ok true)
            end
      end.
Proof. reflexivity. Qed.

Lemma preOrderNodes_unfold (c : PendingChange Hash ID)
    (children : list (PendingChangeNode Hash ID)) :
  preOrderNodes (Node c children) = Node c children :: flat_map preOrderNodes children.
Proof. reflexivity. Qed.

(** The loop either passes over all the nodes, none of which takes the
    import, or stops at one node, the only one that may have changed. *)
Lemma importInto_stops (hash : Hash) (number : N) change isDescendentOf nodes :
  match importInto (importNode hash number change isDescendentOf) nodes with
  | (nodes', None) =>
      nodes' = nodes ∧
      Forall (λ x, importNode hash number change isDescendentOf x = (x, Ok false)) nodes
  | (nodes', Some r) =>
      ∃ pre x x' post,
        nodes = pre ++ x :: post ∧ nodes' = pre ++ x' :: post ∧
        importNode hash number change isDescendentOf x = (x', r) ∧ r ≠ Ok false ∧
        Forall (λ y, importNode hash number change isDescendentOf y = (y, Ok false)) pre
  end.
Proof.
  induction nodes as [|n nodes IH]; [by split|].
  cbn [importInto]. fold (importInto (importNode hash number change isDescendentOf)).
  pose proof (importNode_frame hash number change isDescendentOf n) as Hframe.
  destruct (importNode hash number change isDescendentOf n) as [n' r] eqn:Hn.
  cbn [fst snd] in Hframe.
  destruct r as [[|]|e|msg].
  - exists [], n, n', nodes. by repeat split.
  - rewrite Hframe in * by discriminate.
    destruct (importInto (importNode hash number change isDescendentOf) nodes)
      as [rest' [r|]].
    + destruct IH as (pre & x & x' & post & -> & -> & Hx & Hr & Hpre).
      exists (n :: pre), x, x', post. repeat split; try done. by constructor.
    + destruct IH as [-> Hall]. split; [done|]. by constructor.
  - exists [], n, n', nodes. by repeat split.
  - exists [], n, n', nodes. by repeat split.
Qed.

(** *** What an import adds *)

Lemma importNode_adds (hash : Hash) (number : N) change isDescendentOf pcn :
  (importNode hash number change isDescendentOf pcn).2 = Ok true →
  map Change (preOrderNodes (importNode hash number change isDescendentOf pcn).1)
  ≡ₚ change :: map Change (preOrderNodes pcn).
Proof.
  induction pcn as [c cs IH] using PendingChangeNode_ind'.
  rewrite importNode_unfold.
  destruct (decide (hash = CanonHash c)); [discriminate|].
  destruct (isDescendentOf (CanonHash c) hash) as [e|[|]]; [discriminate| |discriminate].
  destruct (number <=? CanonHeight c); [discriminate|].
  pose proof (importInto_stops hash number change isDescendentOf cs) as Hloop.
  destruct (importInto (importNode hash number change isDescendentOf) cs) as [cs' [r|]].
  - destruct Hloop as (pre & x & x' & post & -> & -> & Hx & Hr & _).
    apply Forall_app in IH as [_ IH]. apply Forall_cons in IH as [IHx _].
    rewrite Hx in IHx. cbn [fst snd] in IHx.
    destruct r as [[|]|e|msg]; cbn [fst snd]; try discriminate; [|done].
    intros _. rewrite !preOrderNodes_unfold, !flat_map_app. cbn [flat_map map].
    rewrite !map_app, IHx by done.
    cbn [app Change]. etrans; [|apply perm_swap]. apply perm_skip.
    by rewrite <-Permutation_middle.
  - destruct Hloop as [-> _]. cbn [fst snd]. intros _.
    rewrite !preOrderNodes_unfold, flat_map_app. cbn [flat_map map].
    rewrite !map_app. rewrite preOrderNodes_unfold. cbn [map flat_map app Change].
    etrans; [|apply perm_swap]. apply perm_skip.
    by rewrite <-Permutation_cons_append.
Qed.

(** An import that succeeds adds the change, and nothing else, to the
    pending changes: the changes afterwards are those before and the new
    one.  It returns [true] exactly when the change became a new root, the
    last one; the best finalized number is not touched. *)
Theorem Import_adds_the_change (hash : Hash) (number : N) change isDescendentOf ct ct'
    (isRoot : bool) :
  Import hash number change isDescendentOf ct = (ct', Ok isRoot) →
  PendingChanges ct' ≡ₚ change :: PendingChanges ct ∧
  BestFinalizedNumber ct' = BestFinalizedNumber ct ∧
  (if isRoot then TreeRoots ct' = TreeRoots ct ++ [Node change []]
   else map Change (TreeRoots ct') = map Change (TreeRoots ct)).
Proof.
  unfold Import, PendingChanges, getPreOrderChangeNodes.
  pose proof (importInto_stops hash number change isDescendentOf (TreeRoots ct)) as Hloop.
  destruct (importInto (importNode hash number change isDescendentOf) (TreeRoots ct))
    as [roots' [r|]].
  - destruct Hloop as (pre & x & x' & post & Hroots & -> & Hx & Hr & _).
    pose proof (importNode_adds hash number change isDescendentOf x) as Hadds.
    rewrite Hx in Hadds. cbn [fst snd] in Hadds.
    destruct r as [[|]|e|msg]; try discriminate; [|done].
    intros [= <- <-]. cbn [TreeRoots BestFinalizedNumber setRoots].
    rewrite Hroots, !flat_map_app. cbn [flat_map]. rewrite !map_app, Hadds by done.
    split; [|split; [done|]].
    + cbn [app]. by rewrite <-Permutation_middle.
    + cbn [map]. do 2 f_equal.
      assert (Change (importNode hash number change isDescendentOf x).1 = Change x) as Hc.
      { destruct x as [c cs]. rewrite importNode_unfold.
        repeat match goal with
        | |- context [if ?b then _ else _] => destruct b
        | |- context [match isDescendentOf ?a ?b with _ => _ end] =>
            destruct (isDescendentOf a b) as [?|[|]]
        | |- context [match importInto ?f ?l with _ => _ end] =>
            destruct (importInto f l) as [? [[?|?|?]|]]
        end; reflexivity. }
      by rewrite Hx in Hc.
  - destruct Hloop as [-> _]. intros [= <- <-].
    cbn [TreeRoots BestFinalizedNumber setRoots].
    rewrite flat_map_app, map_app. cbn. split; [|done].
    by rewrite <-Permutation_cons_append.
Qed.

(** *** The errors of an import *)

Lemma elem_of_flat_map {A B : Type} (f : A → list B) (l : list A) (y : B) :
  y ∈ flat_map f l ↔ ∃ x, x ∈ l ∧ y ∈ f x.
Proof.
  rewrite list_elem_of_In, in_flat_map.
  split; intros (x & Hx & Hy); exists x; by rewrite ?list_elem_of_In in *.
Qed.

Lemma importNode_errors (hash : Hash) (number : N) change isDescendentOf pcn :
  match (importNode hash number change isDescendentOf pcn).2 with
  | Ok _ => True
  | Err e =>
      ∃ y, y ∈ preOrderNodes pcn ∧
           ((e = errDuplicateHashes hash ∧ CanonHash (Change y) = hash) ∨
            (∃ e', e = errAncestry e' ∧
                   isDescendentOf (CanonHash (Change y)) hash = inl e'))
  | Panicked _ => False
  end.
Proof.
  induction pcn as [c cs IH] using PendingChangeNode_ind'.
  rewrite importNode_unfold.
  destruct (decide (hash = CanonHash c)) as [Heq|Hne]; cbn [snd].
  { exists (Node c cs). split; [rewrite preOrderNodes_unfold; left|]. by left. }
  destruct (isDescendentOf (CanonHash c) hash) as [e|[|]] eqn:Hdesc; cbn [snd]; [|..|done].
  { exists (Node c cs). split; [rewrite preOrderNodes_unfold; left|]. right. by exists e. }
  destruct (number <=? CanonHeight c); [done|].
  pose proof (importInto_stops hash number change isDescendentOf cs) as Hloop.
  destruct (importInto (importNode hash number change isDescendentOf) cs) as [cs' [r|]];
    [|done].
  destruct Hloop as (pre & x & x' & post & -> & -> & Hx & Hr & _).
  apply Forall_app in IH as [_ IH]. apply Forall_cons in IH as [IHx _].
  rewrite Hx in IHx. cbn [snd] in IHx.
  destruct r as [b|e|msg]; cbn [snd]; [done| |done].
  destruct IHx as (y & Hy & Hcase). exists y. split; [|done].
  rewrite preOrderNodes_unfold. right. apply elem_of_flat_map. exists x.
  split; [|done]. apply elem_of_app. right. left.
Qed.

(** An import does not panic, and its only errors are these: duplicate
    hashes, when the hash is that of a node of the tree, and the wrapped
    error of the oracle, when the oracle fails at a node of the tree.  The
    errors of finalization are never returned. *)
Theorem Import_errors (hash : Hash) (number : N) change isDescendentOf ct :
  match (Import hash number change isDescendentOf ct).2 with
  | Ok _ => True
  | Err e =>
      ∃ y, y ∈ getPreOrderChangeNodes ct ∧
           ((e = errDuplicateHashes hash ∧ CanonHash (Change y) = hash) ∨
            (∃ e', e = errAncestry e' ∧
                   isDescendentOf (CanonHash (Change y)) hash = inl e'))
  | Panicked _ => False
  end.
Proof.
  unfold Import, getPreOrderChangeNodes.
  pose proof (importInto_stops hash number change isDescendentOf (TreeRoots ct)) as Hloop.
  destruct (importInto (importNode hash number change isDescendentOf) (TreeRoots ct))
    as [roots' [r|]]; [|done].
  destruct Hloop as (pre & x & x' & post & Hroots & -> & Hx & Hr & _).
  pose proof (importNode_errors hash number change isDescendentOf x) as Herr.
  rewrite Hx in Herr. cbn [snd] in Herr.
  destruct r as [b|e|msg]; cbn [snd]; [done| |done].
  destruct Herr as (y & Hy & Hcase). exists y. split; [|done].
  apply elem_of_flat_map. exists x. split; [|done].
  rewrite Hroots. apply elem_of_app. right. left.
Qed.

(** *** The edges of the forest *)

Lemma edgesOk_unfold isDescendentOf (c : PendingChange Hash ID)
    (children : list (PendingChangeNode Hash ID)) :
  edgesOk isDescendentOf (Node c children)
  = forallb
      (λ child,
         (CanonHeight c <? CanonHeight (Change child))
         && descendsFrom isDescendentOf (CanonHash c) (CanonHash (Change child))
         && edgesOk isDescendentOf child)
      children.
Proof. reflexivity. Qed.

Lemma importNode_Change (hash : Hash) (number : N) change isDescendentOf pcn :
  Change (importNode hash number change isDescendentOf pcn).1 = Change pcn.
Proof.
  destruct pcn as [c cs]. rewrite importNode_unfold.
  repeat match goal with
  | |- context [if ?b then _ else _] => destruct b
  | |- context [match isDescendentOf ?a ?b with _ => _ end] =>
      destruct (isDescendentOf a b) as [?|[|]]
  | |- context [match importInto ?f ?l with _ => _ end] =>
      destruct (importInto f l) as [? [[?|?|?]|]]
  end; reflexivity.
Qed.

Lemma importNode_edgesOk (hash : Hash) (number : N) change isDescendentOf pcn :
  CanonHash change = hash → CanonHeight change = number →
  edgesOk isDescendentOf pcn = true →
  edgesOk isDescendentOf (importNode hash number change isDescendentOf pcn).1 = true.
Proof.
  intros Hhash Hnumber.
  induction pcn as [c cs IH] using PendingChangeNode_ind'. intros Hok.
  rewrite importNode_unfold.
  destruct (decide (hash = CanonHash c)); [done|].
  destruct (isDescendentOf (CanonHash c) hash) as [e|[|]] eqn:Hdesc; [done| |done].
  destruct (number <=? CanonHeight c) eqn:Hle; [done|].
  pose proof (importInto_stops hash number change isDescendentOf cs) as Hloop.
  rewrite edgesOk_unfold in Hok.
  destruct (importInto (importNode hash number change isDescendentOf) cs) as [cs' [r|]].
  - destruct Hloop as (pre & x & x' & post & -> & -> & Hx & Hr & _).
    apply Forall_app in IH as [_ IH]. apply Forall_cons in IH as [IHx _].
    pose proof (importNode_Change hash number change isDescendentOf x) as Hc.
    rewrite Hx in IHx, Hc. cbn [fst] in IHx, Hc.
    rewrite forallb_app in Hok. cbn [forallb] in Hok.
    apply andb_true_iff in Hok as [Hpre Hrest].
    apply andb_true_iff in Hrest as [Hxok Hpost].
    apply andb_true_iff in Hxok as [Hedge Hsub].
    assert (edgesOk isDescendentOf (Node c (pre ++ x' :: post)) = true) as Hres.
    { rewrite edgesOk_unfold, forallb_app. cbn [forallb].
      rewrite Hpre, Hpost, Hc, Hedge, IHx by done. reflexivity. }
    by destruct r as [b|e|msg].
  - destruct Hloop as [-> _]. cbn [fst].
    rewrite edgesOk_unfold, forallb_app, Hok. cbn [forallb Change].
    rewrite Hhash, Hnumber. apply N.leb_gt in Hle. apply N.ltb_lt in Hle.
    rewrite Hle. unfold descendsFrom. rewrite Hdesc. reflexivity.
Qed.

(** When the change given to [Import] carries the hash and the number it is
    imported at, the import keeps the order of the forest: along every edge
    the child is higher than its parent and, by the oracle, a descendent of
    it.  This holds of the tree after the call whatever the call returns. *)
Theorem Import_keeps_edges (hash : Hash) (number : N) change isDescendentOf ct :
  CanonHash change = hash → CanonHeight change = number →
  forallb (edgesOk isDescendentOf) (TreeRoots ct) = true →
  forallb (edgesOk isDescendentOf)
    (TreeRoots (Import hash number change isDescendentOf ct).1) = true.
Proof.
  intros Hhash Hnumber Hok. unfold Import.
  pose proof (importInto_stops hash number change isDescendentOf (TreeRoots ct)) as Hloop.
  destruct (importInto (importNode hash number change isDescendentOf) (TreeRoots ct))
    as [roots' [r|]].
  - destruct Hloop as (pre & x & x' & post & Hroots & -> & Hx & Hr & _).
    rewrite Hroots, forallb_app in Hok. cbn [forallb] in Hok.
    apply andb_true_iff in Hok as [Hpre Hrest].
    apply andb_true_iff in Hrest as [Hxok Hpost].
    pose proof (importNode_edgesOk hash number change isDescendentOf x Hhash Hnumber Hxok)
      as Hx'.
    rewrite Hx in Hx'. cbn [fst] in Hx'.
    assert (forallb (edgesOk isDescendentOf) (pre ++ x' :: post) = true) as Hres.
    { rewrite forallb_app. cbn [forallb]. by rewrite Hpre, Hpost, Hx'. }
    by destruct r as [b|e|msg].
  - destruct Hloop as [-> _]. cbn [fst TreeRoots setRoots].
    rewrite forallb_app, Hok. reflexivity.
Qed.

(** *** Finalization *)

(** The finalization, loop by loop. *)
Lemma FinalizeWithDescendentIf_unfold (hash : Hash) (number : N) isDescendentOf
    (predicate : PendingChange Hash ID → bool) ct :
  FinalizeWithDescendentIf hash number isDescendentOf predicate ct
  = if reverts number ct then (ct, Err errRevert)
    else
      match findPosition hash number isDescendentOf predicate (TreeRoots ct) 0 with
      | Err e => (ct, Err e)
      | Panicked msg => (ct, Panicked msg)
      | Ok None =>
          let r := pruneRoots hash number isDescendentOf (TreeRoots ct) false
                     (setRoots [] ct) in
          (r.1, match r.2 with
                | Ok didChange => Ok (if didChange then changed None else unchanged)
                | Err e => Err e
                | Panicked msg => Panicked msg
                end)
      | Ok (Some pos) =>
          match TreeRoots ct !! pos with
          | Some node =>
              let r := pruneRoots hash number isDescendentOf (Children node) false
                         {| TreeRoots := [];
                            BestFinalizedNumber := Some (CanonHeight (Change node)) |} in
              (r.1, match r.2 with
                    | Ok _ => Ok (changed (Some (Change node)))
                    | Err e => Err e
                    | Panicked msg => Panicked msg
                    end)
          | None => (ct, Panicked "swap_remove index out of bounds")
          end
      end.
Proof.
  unfold FinalizeWithDescendentIf, Roots.
  destruct (reverts number ct); [reflexivity|].
  destruct (findPosition hash number isDescendentOf predicate (TreeRoots ct) 0)
    as [[pos|]|e|msg]; [| |reflexivity|reflexivity].
  - unfold swapRemove. destruct (TreeRoots ct !! pos) as [node|] eqn:Hnode; [|reflexivity].
    destruct (decide _);
      [|destruct (last (TreeRoots ct)) as [lastElem|] eqn:Hlast;
        [|apply last_None in Hlast; rewrite Hlast in Hnode;
          by rewrite lookup_nil in Hnode]].
    all: cbn [TreeRoots setRoots BestFinalizedNumber fst snd].
    all: by destruct (pruneRoots _ _ _ _ _ _) as [ct2 [d|e'|msg']].
  - cbn [TreeRoots setRoots].
    by destruct (pruneRoots _ _ _ _ _ _) as [ct2 [[|]|e|msg]].
Qed.

(** What the pruning loop keeps: in their order, roots that the rule
    retains; it reports a change exactly when it dropped a root. *)
Lemma pruneRoots_keeps (hash : Hash) (number : N) isDescendentOf
    (roots : list (PendingChangeNode Hash ID)) (didChange : bool) ct :
  ∃ kept,
    TreeRoots (pruneRoots hash number isDescendentOf roots didChange ct).1
    = TreeRoots ct ++ kept ∧
    sublist kept roots ∧
    Forall (λ r, retains hash number isDescendentOf r = Ok true) kept ∧
    match (pruneRoots hash number isDescendentOf roots didChange ct).2 with
    | Ok didChange' =>
        (didChange = true → didChange' = true) ∧
        (didChange' = false → kept = roots) ∧
        (didChange' = true → didChange = true ∨ (length kept < length roots)%nat)
    | Err e => ∃ e', e = errOracle e'
    | Panicked _ => False
    end.
Proof.
  revert didChange ct. induction roots as [|root rest IH]; intros didChange ct.
  - exists []. cbn [pruneRoots fst snd]. rewrite app_nil_r.
    split; [done|]. split; [constructor|]. split; [constructor|].
    split; [done|]. split; [done|]. by left.
  - cbn [pruneRoots].
    destruct (retains hash number isDescendentOf root) as [[|]|e|msg] eqn:Hret.
    + destruct (IH didChange (setBest number (setRoots (TreeRoots ct ++ [root]) ct)))
        as (kept & Hroots & Hsub & Hkept & Hres).
      exists (root :: kept). cbn [TreeRoots setBest setRoots] in Hroots.
      rewrite Hroots, <-app_assoc. split; [done|].
      split; [by apply sublist_skip|]. split; [by constructor|].
      destruct (pruneRoots _ _ _ rest _ _).2 as [d'|e|msg]; [|done..].
      destruct Hres as (Hmono & Hsame & Hless).
      split; [done|]. split.
      * intros Hd. by rewrite Hsame.
      * intros Hd. destruct (Hless Hd); [by left|right; cbn [length]; lia].
    + destruct (IH true (setBest number ct)) as (kept & Hroots & Hsub & Hkept & Hres).
      exists kept. cbn [TreeRoots setBest] in Hroots. split; [done|].
      split; [by apply sublist_cons|]. split; [done|].
      destruct (pruneRoots _ _ _ rest _ _).2 as [d'|e|msg]; [|done..].
      destruct Hres as (Hmono & Hsame & Hless). rewrite (Hmono eq_refl).
      split; [done|]. split; [done|]. intros _.
      destruct didChange; [by left|]. right. apply sublist_length in Hsub.
      cbn [length]. lia.
    + exists []. cbn [fst snd]. rewrite app_nil_r.
      split; [done|]. split; [apply sublist_nil_l|]. split; [constructor|].
      unfold retains in Hret.
      repeat match type of Hret with
      | context [if ?b then _ else _] => destruct b
      | context [match isDescendentOf ?a ?b with _ => _ end] =>
          destruct (isDescendentOf a b) as [?|?]
      end; try discriminate; injection Hret as <-; by eexists.
    + unfold retains in Hret.
      repeat match type of Hret with
      | context [if ?b then _ else _] => destruct b
      | context [match isDescendentOf ?a ?b with _ => _ end] =>
          destruct (isDescendentOf a b) as [?|?]
      end; discriminate.
Qed.

(** The root found by the first loop passes the predicate and is the
    finalized block or one of its ancestors. *)
Lemma findPosition_found (hash : Hash) (number : N) isDescendentOf
    (predicate : PendingChange Hash ID → bool)
    (roots : list (PendingChangeNode Hash ID)) (i pos : nat) :
  findPosition hash number isDescendentOf predicate roots i = Ok (Some pos) →
  ∃ root, roots !! (pos - i)%nat = Some root ∧ (i ≤ pos)%nat ∧
          predicate (Change root) = true ∧
          (CanonHash (Change root) = hash ∨
           isDescendentOf (CanonHash (Change root)) hash = inr true).
Proof.
  revert i. induction roots as [|root rest IH]; intros i; cbn [findPosition].
  - discriminate.
  - destruct (isDescendentOf (CanonHash (Change root)) hash) as [e|isDesc] eqn:Hdesc;
      [discriminate|].
    destruct (predicate (Change root)) eqn:Hpred; cbn [andb].
    + destruct (bool_decide (CanonHash (Change root) = hash) || isDesc) eqn:Hcond.
      * destruct (checkChildren _ _ _ _); try discriminate. intros [= <-].
        exists root. rewrite Nat.sub_diag. split_and!; [done|lia|done|].
        apply orb_true_iff in Hcond as [Heq%bool_decide_eq_true| ->]; [by left|by right].
      * intros Hpos. destruct (IH _ Hpos) as (r & Hr & Hle & Hp & Hc).
        exists r. replace (pos - i)%nat with (S (pos - S i)) by lia.
        split_and!; [done|lia|done|done].
    + intros Hpos. destruct (IH _ Hpos) as (r & Hr & Hle & Hp & Hc).
      exists r. replace (pos - i)%nat with (S (pos - S i)) by lia.
      split_and!; [done|lia|done|done].
Qed.


(** Every root of the tree after a finalization that returns without error
    is retained by the rule of the pruning loop. *)
Theorem FinalizeWithDescendentIf_roots_retained (hash : Hash) (number : N) isDescendentOf
    (predicate : PendingChange Hash ID → bool) ct ct' (res : FinalizationResult) :
  FinalizeWithDescendentIf hash number isDescendentOf predicate ct = (ct', Ok res) →
  Forall (λ r, retains hash number isDescendentOf r = Ok true) (TreeRoots ct').
Proof.
  rewrite FinalizeWithDescendentIf_unfold.
  destruct (reverts number ct); [discriminate|].
  destruct (findPosition hash number isDescendentOf predicate (TreeRoots ct) 0)
    as [[pos|]|e|msg] eqn:Hpos; [| |discriminate|discriminate].
  - destruct (TreeRoots ct !! pos) as [root|]; [|discriminate]. cbn zeta.
    match goal with
    | |- context [pruneRoots ?h ?n ?o ?rs ?d ?c] =>
        destruct (pruneRoots_keeps h n o rs d c) as (kept & Hroots & _ & Hkept & _);
        destruct (pruneRoots h n o rs d c) as [ct2 [d'|e|msg]]
    end; cbn [fst snd TreeRoots app] in *; try discriminate.
    intros [= <- <-]. by rewrite Hroots.
  - cbn zeta.
    match goal with
    | |- context [pruneRoots ?h ?n ?o ?rs ?d ?c] =>
        destruct (pruneRoots_keeps h n o rs d c) as (kept & Hroots & _ & Hkept & _);
        destruct (pruneRoots h n o rs d c) as [ct2 [d'|e|msg]]
    end; cbn [fst snd TreeRoots setRoots app] in *; try discriminate.
    intros [= <- <-]. by rewrite Hroots.
Qed.

(** A finalization adds no node: whatever the call returns, every node of
    the tree after the call is a node of the tree before it. *)
Theorem FinalizeWithDescendentIf_adds_no_node (hash : Hash) (number : N) isDescendentOf
    (predicate : PendingChange Hash ID → bool) ct (y : PendingChangeNode Hash ID) :
  y ∈ getPreOrderChangeNodes
        (FinalizeWithDescendentIf hash number isDescendentOf predicate ct).1 →
  y ∈ getPreOrderChangeNodes ct.
Proof.
  rewrite FinalizeWithDescendentIf_unfold. unfold getPreOrderChangeNodes.
  destruct (reverts number ct); [done|].
  destruct (findPosition hash number isDescendentOf predicate (TreeRoots ct) 0)
    as [[pos|]|e|msg]; [| |done|done].
  - destruct (TreeRoots ct !! pos) as [[c cs]|] eqn:Hroot; [|done]. cbn zeta. cbn [fst].
    match goal with
    | |- context [pruneRoots ?h ?n ?o ?rs ?d ?c] =>
        destruct (pruneRoots_keeps h n o rs d c) as (kept & -> & Hsub & _ & _)
    end.
    cbn [TreeRoots app Children] in *.
    intros (x & Hx & Hy)%elem_of_flat_map. apply elem_of_flat_map.
    exists (Node c cs). split; [by eapply list_elem_of_lookup_2|].
    rewrite preOrderNodes_unfold. right. apply elem_of_flat_map. exists x.
    split; [|done]. by eapply elem_of_sublist.
  - cbn zeta. cbn [fst].
    match goal with
    | |- context [pruneRoots ?h ?n ?o ?rs ?d ?c] =>
        destruct (pruneRoots_keeps h n o rs d c) as (kept & -> & Hsub & _ & _)
    end.
    cbn [TreeRoots setRoots app].
    intros (x & Hx & Hy)%elem_of_flat_map. apply elem_of_flat_map.
    exists x. split; [|done]. by eapply elem_of_sublist.
Qed.

(** *** The query and the finalization *)

Lemma finalizesAny_none (hash : Hash) (number : N) isDescendentOf
    (predicate : PendingChange Hash ID → bool)
    (roots nodes : list (PendingChangeNode Hash ID)) :
  finalizesAny hash number isDescendentOf predicate roots nodes = Ok None →
  Forall (λ x, ∃ isDesc,
            isDescendentOf (CanonHash (Change x)) hash = inr isDesc ∧
            predicate (Change x)
            && (bool_decide (CanonHash (Change x) = hash) || isDesc) = false) nodes.
Proof.
  induction nodes as [|x nodes IH]; cbn [finalizesAny]; [constructor|].
  destruct (isDescendentOf (CanonHash (Change x)) hash) as [e|isDesc] eqn:Hdesc;
    [discriminate|].
  destruct (predicate (Change x) && _) eqn:Hcond.
  - destruct (checkChildren _ _ _ _); discriminate.
  - intros Hrest. constructor; [by exists isDesc | by apply IH].
Qed.

Lemma findPosition_none (hash : Hash) (number : N) isDescendentOf
    (predicate : PendingChange Hash ID → bool)
    (roots : list (PendingChangeNode Hash ID)) (i : nat) :
  Forall (λ x, ∃ isDesc,
            isDescendentOf (CanonHash (Change x)) hash = inr isDesc ∧
            predicate (Change x)
            && (bool_decide (CanonHash (Change x) = hash) || isDesc) = false) roots →
  findPosition hash number isDescendentOf predicate roots i = Ok None.
Proof.
  intros Hall. revert i. induction Hall as [|x roots (isDesc & Hdesc & Hcond) _ IH];
    intros i; cbn [findPosition]; [done|].
  rewrite Hdesc, Hcond. apply IH.
Qed.

(** When the query answers that no node is finalized, the finalization with
    the same arguments finalizes no node: it returns [changed] without a
    change or [unchanged], or fails in the pruning with an error of the
    oracle; it returns no structural error and does not panic. *)
Theorem nothing_to_finalize (hash : Hash) (number : N) isDescendentOf
    (predicate : PendingChange Hash ID → bool) ct :
  (FinalizesAnyWithDescendentIf hash number isDescendentOf predicate ct).2 = Ok None →
  match (FinalizeWithDescendentIf hash number isDescendentOf predicate ct).2 with
  | Ok (changed (Some _)) => False
  | Ok _ => True
  | Err e => ∃ e', e = errOracle e'
  | Panicked _ => False
  end.
Proof.
  unfold FinalizesAnyWithDescendentIf. rewrite FinalizeWithDescendentIf_unfold.
  destruct (reverts number ct); [discriminate|]. cbn [snd].
  intros Hnone%finalizesAny_none.
  rewrite (findPosition_none hash number isDescendentOf predicate (TreeRoots ct) 0).
  - cbn zeta. cbn [snd].
    match goal with
    | |- context [pruneRoots ?h ?n ?o ?rs ?d ?c] =>
        destruct (pruneRoots_keeps h n o rs d c) as (kept & _ & _ & _ & Hres);
        destruct (pruneRoots h n o rs d c).2 as [[|]|e|msg]
    end; done.
  - apply Forall_forall. intros x Hx.
    eapply Forall_forall in Hnone; [exact Hnone|].
    unfold getPreOrderChangeNodes. apply elem_of_flat_map. exists x. split; [done|].
    destruct x. rewrite preOrderNodes_unfold. left.
Qed.

(** *** The errors of finalization *)

Lemma checkChildren_error (hash : Hash) (number : N) isDescendentOf
    (children : list (PendingChangeNode Hash ID)) e :
  checkChildren hash number isDescendentOf children = Err e →
  (∃ e', e = errOracle e') ∨
  (e = errUnfinalisedAncestor ∧
   ∃ child, child ∈ children ∧ CanonHeight (Change child) ≤ number ∧
            (CanonHash (Change child) = hash ∨
             isDescendentOf (CanonHash (Change child)) hash = inr true)).
Proof.
  induction children as [|child rest IH]; cbn [checkChildren]; [discriminate|].
  destruct (isDescendentOf (CanonHash (Change child)) hash) as [e'|d] eqn:Hdesc.
  { intros [= <-]. left. by exists e'. }
  destruct ((CanonHeight (Change child) <=? number) && _) eqn:Hcond.
  - intros [= <-]. right. split; [done|]. exists child.
    apply andb_true_iff in Hcond as [Hle%N.leb_le Hanc].
    split_and!; [left|done|].
    apply orb_true_iff in Hanc as [Heq%bool_decide_eq_true| ->]; [by left|by right].
  - intros Herr. destruct (IH Herr) as [?|(-> & c & Hc & ?)]; [by left|].
    right. split; [done|]. exists c. split; [by right|done].
Qed.

Lemma findPosition_error (hash : Hash) (number : N) isDescendentOf
    (predicate : PendingChange Hash ID → bool)
    (roots : list (PendingChangeNode Hash ID)) (i : nat) e :
  findPosition hash number isDescendentOf predicate roots i = Err e →
  (∃ e', e = errOracle e') ∨
  (e = errUnfinalisedAncestor ∧
   ∃ root child, root ∈ roots ∧ child ∈ Children root ∧
                 predicate (Change root) = true ∧
                 CanonHeight (Change child) ≤ number ∧
                 (CanonHash (Change child) = hash ∨
                  isDescendentOf (CanonHash (Change child)) hash = inr true)).
Proof.
  revert i. induction roots as [|root rest IH]; intros i; cbn [findPosition];
    [discriminate|].
  destruct (isDescendentOf (CanonHash (Change root)) hash) as [e'|d] eqn:Hdesc.
  { intros [= <-]. left. by exists e'. }
  destruct (predicate (Change root)) eqn:Hpred; cbn [andb].
  - destruct (bool_decide (CanonHash (Change root) = hash) || d).
    + destruct (checkChildren hash number isDescendentOf (Children root)) eqn:Hc;
        try discriminate.
      intros [= <-].
      apply checkChildren_error in Hc as [?|(-> & c & Hin & Hle & Hanc)]; [by left|].
      right. split; [done|]. exists root, c. split_and!; [left|done..].
    + intros Herr. destruct (IH _ Herr) as [?|(-> & r & c & Hr & ?)]; [by left|].
      right. split; [done|]. exists r, c. split; [by right|done].
  - intros Herr. destruct (IH _ Herr) as [?|(-> & r & c & Hr & ?)]; [by left|].
    right. split; [done|]. exists r, c. split; [by right|done].
Qed.

(** The errors of a finalization.  The revert error is returned exactly when
    a best finalized number is set and the number is not above it.  The
    unfinalised-ancestor error is returned only when a root that passes the
    predicate has a child at or below the number that is the finalized
    block or an ancestor of it.  Every other error is an error of the
    oracle, and duplicate hashes are never reported. *)
Theorem FinalizeWithDescendentIf_errors (hash : Hash) (number : N) isDescendentOf
    (predicate : PendingChange Hash ID → bool) ct :
  ((FinalizeWithDescendentIf hash number isDescendentOf predicate ct).2 = Err errRevert ↔
   ∃ best, BestFinalizedNumber ct = Some best ∧ number ≤ best) ∧
  ((FinalizeWithDescendentIf hash number isDescendentOf predicate ct).2
   = Err errUnfinalisedAncestor →
   ∃ root child, root ∈ TreeRoots ct ∧ child ∈ Children root ∧
                 predicate (Change root) = true ∧
                 CanonHeight (Change child) ≤ number ∧
                 (CanonHash (Change child) = hash ∨
                  isDescendentOf (CanonHash (Change child)) hash = inr true)) ∧
  (∀ e, (FinalizeWithDescendentIf hash number isDescendentOf predicate ct).2 = Err e →
        e = errRevert ∨ e = errUnfinalisedAncestor ∨ ∃ e', e = errOracle e').
Proof.
  assert (∀ e,
    (FinalizeWithDescendentIf hash number isDescendentOf predicate ct).2 = Err e →
    (reverts number ct = true ∧ e = errRevert) ∨
    (reverts number ct = false ∧
     (findPosition hash number isDescendentOf predicate (TreeRoots ct) 0 = Err e ∨
      ∃ e', e = errOracle e'))) as Hcases.
  { intros e. rewrite FinalizeWithDescendentIf_unfold.
    destruct (reverts number ct); [intros [= <-]; by left|].
    intros Herr. right. split; [done|]. revert Herr.
    destruct (findPosition hash number isDescendentOf predicate (TreeRoots ct) 0)
      as [[pos|]|e0|msg]; [| |intros [= <-]; by left|discriminate].
    - destruct (TreeRoots ct !! pos) as [node|]; [|discriminate].
      cbn zeta. cbn [snd].
      match goal with
      | |- context [pruneRoots ?h ?n ?o ?rs ?d ?c] =>
          destruct (pruneRoots_keeps h n o rs d c) as (kept & _ & _ & _ & Hres);
          destruct (pruneRoots h n o rs d c).2 as [d'|e1|msg]
      end; try discriminate. intros [= <-]. by right.
    - cbn zeta. cbn [snd].
      match goal with
      | |- context [pruneRoots ?h ?n ?o ?rs ?d ?c] =>
          destruct (pruneRoots_keeps h n o rs d c) as (kept & _ & _ & _ & Hres);
          destruct (pruneRoots h n o rs d c).2 as [d'|e1|msg]
      end; try discriminate. intros [= <-]. by right. }
  assert (reverts number ct = true ↔
          ∃ best, BestFinalizedNumber ct = Some best ∧ number ≤ best) as Hrev.
  { unfold reverts. destruct (BestFinalizedNumber ct) as [best|].
    - rewrite N.leb_le. split; [intros ?; by exists best|by intros (b & [= <-] & ?)].
    - split; [done|by intros (b & [=] & ?)]. }
  split_and!.
  - rewrite <-Hrev. split.
    + intros [[Hr _]|[_ [Hf|[e' [=]]]]]%Hcases; [done|].
      by apply findPosition_error in Hf as [[e' [=]]|[[=] _]].
    + intros Hr. rewrite FinalizeWithDescendentIf_unfold. by rewrite Hr.
  - intros [[_ [=]]|[_ [Hf|[e' [=]]]]]%Hcases.
    by apply findPosition_error in Hf as [[e' [=]]|[_ Hwit]].
  - intros e [[_ ->]|[_ [Hf|He]]]%Hcases; [by left| |by right; right].
    apply findPosition_error in Hf as [He|[-> _]]; [by right; right|right; by left].
Qed.



(** *** swapRemove *)


End More.

Import Scenarios.

(** The import of [hB] under the root [hA]. *)
Lemma Import_adds_the_change_witness :
  PendingChanges treeAB ≡ₚ changeAt hB 11 :: PendingChanges treeA ∧
  BestFinalizedNumber treeAB = BestFinalizedNumber treeA ∧
  map Change (TreeRoots treeAB) = map Change (TreeRoots treeA).
Proof.
  apply (Import_adds_the_change hB 11 (changeAt hB 11) descends treeA treeAB false).
  reflexivity.
Defined.

Lemma Import_keeps_edges_witness :
  forallb (edgesOk descends)
    (TreeRoots (Import hB 11 (changeAt hB 11) descends treeA).1) = true.
Proof.
  apply (Import_keeps_edges hB 11 (changeAt hB 11) descends treeA); reflexivity.
Defined.


Lemma FinalizeWithDescendentIf_roots_retained_witness :
  Forall (λ r, retains hA 10 descends r = Ok true) (TreeRoots treeFinalizedA).
Proof.
  apply (FinalizeWithDescendentIf_roots_retained hA 10 descends always treeAB
           treeFinalizedA (changed (Some (changeAt hA 10)))).
  reflexivity.
Defined.

Lemma FinalizeWithDescendentIf_adds_no_node_witness :
  Node (changeAt hB 11) [] ∈ getPreOrderChangeNodes treeAB.
Proof.
  apply (FinalizeWithDescendentIf_adds_no_node hA 10 descends always treeAB).
  apply list_elem_of_here.
Defined.


(** The block [hC] at height 20 finalizes no change of the tree of [hA] and
    [hB]. *)
Lemma nothing_to_finalize_witness :
  match (FinalizeWithDescendentIf hC 20 descends always treeAB).2 with
  | Ok (changed (Some _)) => False
  | Ok _ => True
  | Err e => ∃ e', e = errOracle e'
  | Panicked _ => False
  end.
Proof.
  apply (nothing_to_finalize hC 20 descends always treeAB). reflexivity.
Defined.


End ChangeTreeMore.

(** ** LeafSet: imports, reverts, reads and persistence *)

Module LeafSetMore.

Import LeafSet LeafSetFacts.

#[local] Existing Instance key_le_total.
#[local] Existing Instance key_le_transitive.

Section More.

Context {Hash : Type} `{EqDecision Hash}.

Implicit Types (ls : LeafSet Hash) (h hash parentHash : Hash) (n number : N).

(** *** Import *)

(** What [Import] does to the leaves and what it reports: the block becomes
    a leaf, its parent one number below stops being one, every other leaf
    stays; the outcome names the block, and the parent if it was a leaf. *)
Theorem Import_leaves hash number parentHash ls :
  (∀ n h,
     Contains n h (Import hash number parentHash ls).1
     = Contains n h ls
       && negb (bool_decide (number ≠ 0 ∧ n = number - 1 ∧ h = parentHash))
       || bool_decide (n = number ∧ h = hash)) ∧
  io_inserted (Import hash number parentHash ls).2 = mkItem hash number ∧
  io_removed (Import hash number parentHash ls).2
  = (if bool_decide (number ≠ 0) && Contains (number - 1) parentHash ls
     then Some parentHash else None).
Proof.
  unfold Import. destruct (decide (number ≠ 0)) as [Hpos|Hzero].
  - pose proof (removeLeaf_found (number - 1) parentHash ls) as Hfound.
    pose proof (Contains_removeLeaf (number - 1) parentHash ls) as Hrem.
    destruct (removeLeaf (number - 1) parentHash ls) as [ls1 wasLeaf].
    cbn [fst snd io_inserted io_removed] in *. subst wasLeaf.
    rewrite (bool_decide_eq_true_2 (number ≠ 0)) by done. cbn [andb].
    split_and!; [|done|done].
    intros n h. rewrite Contains_insertLeaf, Hrem. do 3 f_equal.
    apply bool_decide_ext. tauto.
  - cbn [fst snd io_inserted io_removed].
    rewrite (bool_decide_eq_false_2 (number ≠ 0)) by done. cbn [andb].
    split_and!; [|done|done].
    intros n h. rewrite Contains_insertLeaf.
    rewrite (bool_decide_eq_false_2 (number ≠ 0 ∧ _)) by tauto.
    by rewrite andb_true_r.
Qed.

(** *** Revert *)

Lemma items_complete ls n h :
  Contains n h ls = true → mkItem h n ∈ items ls.
Proof.
  unfold Contains, items. destruct (storage ls !! n) as [hashes|] eqn:Hn; [|done].
  intros Hin%bool_decide_eq_true. apply list_elem_of_bind. exists (n, hashes).
  split; [|by apply elem_of_descending].
  cbn [fst snd]. apply list_elem_of_fmap. by exists h.
Qed.

Lemma dropAbove_leaves bestNumber (hns : list (leafSetItem Hash)) ls :
  NoDup hns →
  (∀ hn, hn ∈ hns → Contains (LeafSet.number hn) (LeafSet.hash hn) ls = true) →
  ∃ ls', dropAbove bestNumber hns ls = Some ls' ∧
         ∀ n h, Contains n h ls' = true ↔
                Contains n h ls = true ∧ ¬ (bestNumber < n ∧ mkItem h n ∈ hns).
Proof.
  intros Hnd. revert ls. induction Hnd as [|hn rest Hnotin _ IH]; intros ls Hin.
  - exists ls. split; [done|]. intros n h. split; [|tauto].
    intros Hc. split; [done|]. intros [_ Hnil]. by apply elem_of_nil in Hnil.
  - cbn [dropAbove]. destruct (decide (bestNumber < LeafSet.number hn)) as [Habove|Hbelow].
    + pose proof (removeLeaf_found (LeafSet.number hn) (LeafSet.hash hn) ls) as Hfound.
      pose proof (Contains_removeLeaf (LeafSet.number hn) (LeafSet.hash hn) ls) as Hrem.
      destruct (removeLeaf (LeafSet.number hn) (LeafSet.hash hn) ls) as [ls1 wasLeaf].
      cbn [fst snd] in *. rewrite Hfound, (Hin hn) by apply list_elem_of_here.
      destruct (IH ls1) as (ls' & Hdrop & Hls').
      { intros hn' Hhn'. rewrite Hrem, (Hin hn') by by apply list_elem_of_further.
        rewrite bool_decide_eq_false_2; [done|].
        intros [Hn Hh]. apply Hnotin. destruct hn, hn'. cbn in Hn, Hh. by subst. }
      exists ls'. split; [done|]. intros n h. rewrite Hls', Hrem.
      rewrite andb_true_iff, negb_true_iff, bool_decide_eq_false, elem_of_cons.
      split.
      * intros [[Hc Hne] Hrest]. split; [done|]. intros [Hlt [Heq|Hr]]; [|tauto].
        apply Hne. by rewrite <-Heq.
      * intros [Hc Hno]. split; [split; [done|]|tauto].
        intros [-> ->]. apply Hno. split; [done|]. left. by destruct hn.
    + destruct (IH ls) as (ls' & Hdrop & Hls').
      { intros hn' Hhn'. apply Hin. by apply list_elem_of_further. }
      exists ls'. split; [done|]. intros n h. rewrite Hls', elem_of_cons.
      split; [|tauto]. intros [Hc Hno]. split; [done|].
      intros [Hlt [Heq|Hr]]; [|tauto]. apply Hbelow. by rewrite <-Heq.
Qed.

(** On a leaf set without a hash twice at a number, [Revert] does not
    panic; afterwards the leaves are those at or below the best number
    together with the best block, and still no hash is twice at a number. *)
Theorem Revert_leaves bestHash bestNumber ls :
  noDuplicates ls →
  ∃ ls', Revert bestHash bestNumber ls = Some ls' ∧
         noDuplicates ls' ∧
         ∀ n h, Contains n h ls' = true ↔
                (Contains n h ls = true ∧ n ≤ bestNumber) ∨
                (n = bestNumber ∧ h = bestHash).
Proof.
  intros Hls. unfold Revert.
  destruct (dropAbove_noDuplicates bestNumber (items ls) ls) as (ls1 & Hdrop & Hls1);
    [by apply items_NoDup | apply items_contained | exact Hls |].
  destruct (dropAbove_leaves bestNumber (items ls) ls) as (ls1' & Hdrop' & Hleaves);
    [by apply items_NoDup | apply items_contained |].
  rewrite Hdrop in Hdrop'. injection Hdrop' as <-. rewrite Hdrop.
  assert (∀ n h, Contains n h ls1 = true ↔ Contains n h ls = true ∧ n ≤ bestNumber)
    as Hkept.
  { intros n h. rewrite Hleaves. split.
    - intros [Hc Hno]. split; [done|].
      destruct (decide (n ≤ bestNumber)) as [|Hgt]; [done|].
      exfalso. apply Hno. split; [lia|]. by apply items_complete.
    - intros [Hc Hle]. split; [done|]. intros [Hlt _]. lia. }
  destruct (Contains bestNumber bestHash ls1) eqn:Hbest; cbn [negb].
  - exists ls1. split_and!; [done..|]. intros n h. rewrite Hkept.
    split; [by left|]. intros [?|[-> ->]]; [done|]. by apply Hkept.
  - eexists. split_and!; [done|by apply noDuplicates_insertLeaf|].
    intros n h. rewrite Contains_insertLeaf, orb_true_iff, Hkept, bool_decide_eq_true.
    reflexivity.
Qed.

(** *** Reads *)

Lemma foldl_count (levels : list (list Hash)) (sum : nat) :
  foldl (λ sum level, (sum + length level)%nat) sum levels
  = (sum + length (concat levels))%nat.
Proof.
  revert sum. induction levels as [|level levels IH]; intros sum; cbn [foldl concat].
  - cbn [length]. lia.
  - rewrite IH, length_app. lia.
Qed.

Lemma length_concat_reverse (levels : list (list Hash)) :
  length (concat (reverse levels)) = length (concat levels).
Proof.
  induction levels as [|level levels IH]; [done|].
  rewrite reverse_cons, concat_app, !length_app. cbn [concat].
  rewrite app_nil_r, length_app, IH. lia.
Qed.

(** [Count] is the number of hashes that [Hashes] returns. *)
Theorem Count_Hashes ls : Count ls = length (Hashes ls).
Proof.
  unfold Count, Hashes, values, descending. rewrite foldl_count. cbn [Nat.add].
  rewrite <-length_concat_reverse, <-fmap_reverse.
  generalize (reverse (scan (storage ls))) as l.
  induction l as [|[k v] l IH]; [done|]. cbn. by rewrite !length_app, IH.
Qed.

Lemma descending_sorted {V : Type} (m : gmap N V) :
  StronglySorted (λ a b, b.1 ≤ a.1) (descending m).
Proof.
  unfold descending, scan.
  apply Sorted_StronglySorted; [intros a b c; lia|].
  apply (Sorted_reverse key_le). apply Sorted_merge_sort. apply _.
Qed.

(** [Hashes] returns the hashes of the leaves, each leaf once for each time
    it is stored, ordered by block number descending. *)
Theorem Hashes_descending ls :
  Hashes ls = LeafSet.hash <$> items ls ∧
  StronglySorted (λ a b, LeafSet.number b ≤ LeafSet.number a) (items ls) ∧
  ∀ n h, mkItem h n ∈ items ls ↔ Contains n h ls = true.
Proof.
  split_and!.
  - unfold Hashes, items. generalize (descending (storage ls)) as l.
    induction l as [|[k v] l IH]; [done|]. cbn. rewrite fmap_app, <-IH. f_equal.
    clear. induction v as [|x v IH]; [done|]. cbn. by rewrite <-IH.
  - unfold items. pose proof (descending_sorted (storage ls)) as Hs.
    induction Hs as [|[k v] l _ IH Hall]; [constructor|].
    cbn. apply StronglySorted_app; split_and!.
    + intros a b (x & -> & _)%list_elem_of_fmap ([k' v'] & Hb & Hkv)%list_elem_of_bind.
      apply list_elem_of_fmap in Hb as (z & -> & _).
      eapply Forall_forall in Hall; [|exact Hkv]. done.
    + clear. induction v as [|x v IH]; [constructor|]. cbn. constructor; [done|].
      apply Forall_forall. intros y (z & -> & _)%list_elem_of_fmap. done.
    + exact IH.
  - intros n h. split; [apply (items_contained ls (mkItem h n)) | apply items_complete].
Qed.

(** [HighestLeaf] returns the level with the largest number, and [nil] only
    for the empty leaf set. *)
Theorem HighestLeaf_max ls :
  match HighestLeaf ls with
  | Some (n, hashes) =>
      storage ls !! n = Some hashes ∧
      ∀ k level, storage ls !! k = Some level → k ≤ n
  | None => storage ls = ∅
  end.
Proof.
  unfold HighestLeaf.
  assert (StronglySorted key_le (scan (storage ls))) as Hs.
  { unfold scan. apply StronglySorted_merge_sort; apply _. }
  destruct (last (scan (storage ls))) as [[n hashes]|] eqn:Hlast.
  - apply last_Some in Hlast as [front Hscan].
    assert ((n, hashes) ∈ scan (storage ls)) as Hin.
    { rewrite Hscan. apply elem_of_app. right. left. }
    split; [by apply elem_of_scan|].
    intros k level Hk%elem_of_scan. rewrite Hscan in Hs, Hk.
    apply elem_of_app in Hk as [Hk|Hk%list_elem_of_singleton].
    + apply StronglySorted_app in Hs as (Hle & _ & _).
      apply (Hle (k, level) (n, hashes)); [done|left].
    + injection Hk as -> _. lia.
  - apply last_None in Hlast. apply map_eq. intros k. rewrite lookup_empty.
    destruct (storage ls !! k) as [v|] eqn:Hk; [|done].
    apply elem_of_scan in Hk. rewrite Hlast in Hk. by apply elem_of_nil in Hk.
Qed.

(** *** FinalizeHeight and its dry run *)

(** [DisplacedByFinalHeight] returns what [FinalizeHeight] removes, and the
    storage after [FinalizeHeight] is the storage before without the levels
    of the outcome. *)
Theorem FinalizeHeight_displaces number ls :
  (FinalizeHeight number ls).2 = DisplacedByFinalHeight number ls ∧
  storage (FinalizeHeight number ls).1
  = storage ls ∖ fo_removed (DisplacedByFinalHeight number ls) ∧
  fo_removed (DisplacedByFinalHeight number ls) ⊆ storage ls.
Proof.
  unfold FinalizeHeight, DisplacedByFinalHeight.
  destruct (decide (number = 0)).
  - cbn [fst snd fo_removed]. split_and!; [done| |apply map_empty_subseteq].
    by rewrite map_difference_empty.
  - destruct (head (ascend (number - 1) (storage ls))) as [[k v]|] eqn:Hhead.
    + apply head_ascend_lookup in Hhead as [Hk _].
      cbn [fst snd fo_removed storage]. split_and!; [done| |].
      * apply map_eq. intros i. rewrite lookup_difference.
        destruct (decide (i = k)) as [->|Hne].
        -- by rewrite lookup_delete_eq, lookup_singleton_eq.
        -- by rewrite lookup_delete_ne, lookup_singleton_ne.
      * by apply map_singleton_subseteq_l.
    + cbn [fst snd fo_removed]. split_and!; [done| |apply map_empty_subseteq].
      by rewrite map_difference_empty.
Qed.

End More.

(** *** Persistence *)

Section Persistence.

Context {Hash : Type} `{EqDecision Hash} {Bytes : Type}.
Variable marshal : list (N * list Hash) → Bytes.
Variable unmarshal : Bytes → option (list (N * list Hash)).

Lemma foldl_set_lookup (vals : list (N * list Hash)) (m0 : gmap N (list Hash))
    (k : N) (v : list Hash) :
  NoDup (vals.*1) →
  foldl (λ acc nh, <[nh.1 := nh.2]> acc) m0 vals !! k = Some v ↔
  (k, v) ∈ vals ∨ ((k ∉ vals.*1) ∧ m0 !! k = Some v).
Proof.
  revert m0. induction vals as [|[k0 v0] vals IH]; intros m0 Hnd.
  - cbn. split; [intros ?; right; split; [apply not_elem_of_nil|done]|].
    intros [Hin|[_ ?]]; [by apply elem_of_nil in Hin|done].
  - cbn in Hnd. apply NoDup_cons in Hnd as [Hk0 Hnd].
    cbn [foldl fst snd]. rewrite IH by done. cbn [fmap list_fmap fst].
    rewrite elem_of_cons, not_elem_of_cons.
    destruct (decide (k = k0)) as [->|Hne].
    + rewrite lookup_insert_eq. split.
      * intros [Hin|[_ [= ->]]]; [|by left; left].
        exfalso. apply Hk0. apply list_elem_of_fmap. by exists (k0, v).
      * intros [[[= ->]|Hin]|[[? _] _]]; [|by left|done].
        right. split; [done|done].
    + rewrite lookup_insert_ne by done. split.
      * intros [Hin|[? ?]]; [left; by right|by right].
      * intros [[[= -> _]|Hin]|[[_ ?] ?]]; [done|by left|by right].
Qed.

(** What [PrepareTransaction] writes, [NewLeafSetFromDB] reads back as the
    same leaf set, when decoding inverts encoding. *)
Theorem persistence_round_trip (ls : LeafSet Hash) :
  (∀ vals, unmarshal (marshal vals) = Some vals) →
  NewLeafSetFromDB unmarshal (Some (PrepareTransaction marshal ls)) = Some ls.
Proof.
  intros Hcodec. unfold NewLeafSetFromDB, PrepareTransaction. rewrite Hcodec.
  destruct ls as [m]. cbn [storage]. do 2 f_equal. apply map_eq. intros k.
  apply option_eq. intros v.
  rewrite foldl_set_lookup by apply NoDup_descending_keys.
  rewrite elem_of_descending, lookup_empty. split; [|by left].
  intros [?|[_ [=]]]. done.
Qed.

End Persistence.

Import Scenarios.

Lemma leavesLowHigh_noDuplicates : noDuplicates leavesLowHigh.
Proof. apply (bool_decide_unpack _). by vm_compute. Qed.

(** The revert to the block 100 at number 5 over the leaves at 5 and 12. *)
Lemma Revert_leaves_witness :
  ∃ ls', Revert 100%nat 5 leavesLowHigh = Some ls' ∧
         noDuplicates ls' ∧
         ∀ n h, Contains n h ls' = true ↔
                (Contains n h leavesLowHigh = true ∧ n ≤ 5) ∨
                (n = 5 ∧ h = 100%nat).
Proof.
  apply (Revert_leaves 100%nat 5 leavesLowHigh), leavesLowHigh_noDuplicates.
Defined.

Lemma Remove_leaf_witness :
  ∃ ls', Remove 100%nat 1 (Some 10%nat) leavesOne
         = (ls', Some {| ro_inserted := Some 10%nat; ro_removed := mkItem 100%nat 1 |}) ∧
         ∀ n h, Contains n h ls'
                = Contains n h leavesOne && negb (bool_decide (n = 1 ∧ h = 100%nat))
                  || bool_decide (n = 1 - 1 ∧ Some 10%nat = Some h).
Proof.
  apply (Remove_leaf 100%nat 1 (Some 10%nat) leavesOne); [reflexivity|by right].
Defined.

Lemma FinalizeHeight_removes_least_witness :
  11 ≠ 0 ∧ 11 - 1 ≤ 12 ∧
  fo_removed (FinalizeHeight 11 leavesLowHigh).2 = {[ 12 := [200%nat] ]} ∧
  ∀ k' hashes', storage leavesLowHigh !! k' = Some hashes' → 11 - 1 ≤ k' → 12 ≤ k'.
Proof.
  apply (FinalizeHeight_removes_least 11 leavesLowHigh 12 [200%nat]); reflexivity.
Defined.

(** With the identity as codec. *)
Lemma persistence_round_trip_witness :
  NewLeafSetFromDB Some (Some (PrepareTransaction id leavesLowHigh)) = Some leavesLowHigh.
Proof.
  apply (persistence_round_trip id Some leavesLowHigh). reflexivity.
Defined.

End LeafSetMore.

(** ** More on the sorted keys of the state container *)

Module TrieStateMore.

Import TrieState TrieStateFacts Scenarios.

(** *** The order of the keys *)

Lemma ltb_false_le (s t : string) : String.ltb s t = false ↔ String.le t s.
Proof.
  rewrite <-not_true_iff_false, ltb_not_le.
  split; [|by intros Hle Hn; apply Hn].
  intros Hn. by destruct (decide (String.le t s)) as [Hle|Hle]; [|destruct (Hn Hle)].
Qed.

Lemma ltb_le (s t : string) : String.ltb s t = true → String.le s t.
Proof.
  intros Hlt%ltb_not_le. by destruct (total String.le s t) as [Hle|Hle]; [|destruct (Hlt Hle)].
Qed.

Lemma ltb_irrefl (s : string) : String.ltb s s = false.
Proof. by apply ltb_false_le. Qed.

Lemma StronglySorted_sublist (l k : list string) :
  l `sublist_of` k → StronglySorted String.le k → StronglySorted String.le l.
Proof.
  induction 1 as [|x l k Hsub IH|x l k Hsub IH]; intros Hs.
  - constructor.
  - apply StronglySorted_cons in Hs as [Hall Hs]. constructor; [by apply IH|].
    apply Forall_forall. intros y Hy. eapply Forall_forall in Hall; [exact Hall|].
    by eapply elem_of_sublist.
  - apply StronglySorted_cons in Hs as [_ Hs]. by apply IH.
Qed.

Lemma keysSorted_sublist (l k : list string) :
  l `sublist_of` k → keysSorted k → keysSorted l.
Proof.
  intros Hsub [Hs Hnd]. split; [by eapply StronglySorted_sublist|by eapply sublist_NoDup].
Qed.

(** Two sorted lists of keys with the same keys are the same list. *)
Lemma keysSorted_ext (l k : list string) :
  keysSorted l → keysSorted k → (∀ s, s ∈ l ↔ s ∈ k) → l = k.
Proof.
  intros [Hl Hndl] [Hk Hndk] Hiff.
  apply (StronglySorted_unique String.le); [done..|]. by apply NoDup_Permutation.
Qed.

(** *** The binary search *)

Lemma searchLoop_between (x : list string) (target : string) (steps i j : nat) :
  (i ≤ j)%nat → (i ≤ searchLoop steps x target i j ≤ j)%nat.
Proof.
  revert i j. induction steps as [|steps IH]; intros i j Hij; cbn [searchLoop]; [lia|].
  destruct (i <? j)%nat eqn:Hlt; [|lia].
  apply Nat.ltb_lt in Hlt. pose proof (half_between i j Hlt) as Hh.
  destruct (String.ltb _ _).
  - specialize (IH ((i + j) / 2 + 1)%nat j). lia.
  - specialize (IH i ((i + j) / 2)%nat). lia.
Qed.

Lemma BinarySearch_bound (x : list string) (target : string) :
  ((BinarySearch x target).1 ≤ length x)%nat.
Proof.
  unfold BinarySearch. cbn [fst].
  pose proof (searchLoop_between x target (S (length x)) 0 (length x)). lia.
Qed.

Lemma BinarySearch_found_lookup (x : list string) (target : string) :
  (BinarySearch x target).2 = true ↔ x !! (BinarySearch x target).1 = Some target.
Proof. unfold BinarySearch. cbn [fst snd]. by rewrite bool_decide_eq_true. Qed.

Lemma BinarySearch_found_iff (x : list string) (target : string) :
  StronglySorted String.le x →
  (BinarySearch x target).2 = true ↔ target ∈ x.
Proof.
  intros Hs. destruct (BinarySearch_lower_bound x target Hs) as [Hlow Hhigh].
  rewrite BinarySearch_found_lookup. split; [apply list_elem_of_lookup_2|].
  intros [p Hp]%list_elem_of_lookup_1.
  assert ((BinarySearch x target).1 ≤ p)%nat as Hle.
  { apply Nat.nlt_ge. intros Hlt. specialize (Hlow p target Hlt Hp).
    by rewrite ltb_irrefl in Hlow. }
  destruct (lookup_lt_is_Some_2 x (BinarySearch x target).1) as [s Hsome].
  { apply lookup_lt_Some in Hp. lia. }
  rewrite Hsome. f_equal. apply (anti_symm String.le).
  - by apply (sorted_lookup_le x (BinarySearch x target).1 p).
  - apply ltb_false_le. by apply (Hhigh (BinarySearch x target).1).
Qed.

Lemma BinarySearch_split (x : list string) (target : string) :
  StronglySorted String.le x →
  Forall (λ s, String.ltb s target = true) (take (BinarySearch x target).1 x) ∧
  Forall (String.le target) (drop (BinarySearch x target).1 x).
Proof.
  intros Hs. destruct (BinarySearch_lower_bound x target Hs) as [Hlow Hhigh]. split.
  - apply Forall_forall. intros s [p [Hp Hlt]]%elem_of_take. by apply (Hlow p).
  - apply Forall_forall. intros s [p Hp]%list_elem_of_lookup_1.
    rewrite lookup_drop in Hp. apply ltb_false_le.
    apply (Hhigh ((BinarySearch x target).1 + p)%nat); [lia|done].
Qed.

(** *** Inserting and removing a key *)

Lemma take_drop_delete (keys : list string) (pos : nat) :
  take pos keys ++ drop (S pos) keys = base.delete pos keys.
Proof. by rewrite delete_take_drop. Qed.

Lemma insertSortedKey_elem (keys : list string) (key : string) :
  StronglySorted String.le keys →
  ∀ k, k ∈ insertSortedKey keys key ↔ k = key ∨ k ∈ keys.
Proof.
  intros Hs k. pose proof (BinarySearch_found_iff keys key Hs) as Hfound.
  unfold insertSortedKey. destruct (BinarySearch keys key) as [pos found] eqn:Hsearch.
  cbn [fst snd] in *. destruct found.
  - split; [by right|]. intros [->|Hk]; [|done]. by apply Hfound.
  - assert (k ∈ keys ↔ k ∈ take pos keys ∨ k ∈ drop pos keys) as ->
      by by rewrite <-elem_of_app, take_drop.
    rewrite elem_of_app, elem_of_cons. tauto.
Qed.

Lemma insertSortedKey_keysSorted (keys : list string) (key : string) :
  keysSorted keys → keysSorted (insertSortedKey keys key).
Proof.
  intros [Hs Hnd].
  pose proof (BinarySearch_found_iff keys key Hs) as Hfound.
  destruct (BinarySearch_split keys key Hs) as [Hlow Hhigh].
  unfold insertSortedKey. destruct (BinarySearch keys key) as [pos found] eqn:Hsearch.
  cbn [fst snd] in *. destruct found; [done|].
  assert (key ∉ keys) as Hnew.
  { intros Hin%Hfound. discriminate. }
  split.
  - apply StronglySorted_app_2.
    + intros x1 x2 Hx1 [->|Hx2]%elem_of_cons.
      * apply ltb_le. by eapply Forall_forall in Hlow.
      * etrans; [apply ltb_le; by eapply Forall_forall in Hlow|].
        by eapply Forall_forall in Hhigh.
    + eapply StronglySorted_sublist; [apply sublist_take|done].
    + constructor; [|done].
      eapply StronglySorted_sublist; [apply sublist_drop|done].
  - rewrite <-(take_drop pos keys) in Hnd, Hnew.
    apply NoDup_app in Hnd as (Hnd1 & Hdisj & Hnd2).
    rewrite elem_of_app in Hnew.
    apply NoDup_app. split_and!; [done| |].
    + intros x Hx [->|Hx2]%elem_of_cons; [tauto|]. by apply (Hdisj x).
    + apply NoDup_cons. tauto.
Qed.

(** Inserting a key into sorted keys gives sorted keys that hold the
    key and the keys that were there, and nothing else. *)
Theorem insertSortedKey_sorted (keys : list string) (key : string) :
  keysSorted keys →
  keysSorted (insertSortedKey keys key) ∧
  ∀ k, k ∈ insertSortedKey keys key ↔ k = key ∨ k ∈ keys.
Proof.
  intros Hk. split; [by apply insertSortedKey_keysSorted|].
  apply insertSortedKey_elem, Hk.
Qed.

Lemma keysSorted_ac : keysSorted ["a"; "c"]%string.
Proof.
  split; [repeat constructor|]. apply NoDup_ListNoDup.
  repeat constructor; cbn; intuition discriminate.
Defined.

Lemma insertSortedKey_sorted_witness :
  keysSorted ["a"; "c"]%string ∧
  keysSorted (insertSortedKey ["a"; "c"]%string "b"%string).
Proof.
  split; [exact keysSorted_ac|].
  exact (proj1 (insertSortedKey_sorted ["a"; "c"]%string "b"%string keysSorted_ac)).
Defined.

Lemma removeSortedKey_sublist (keys : list string) (key : string) :
  removeSortedKey keys key `sublist_of` keys.
Proof.
  unfold removeSortedKey. destruct (BinarySearch keys key) as [pos []]; [|done].
  rewrite take_drop_delete. apply sublist_delete.
Qed.

Lemma removeSortedKey_elem (keys : list string) (key : string) :
  keysSorted keys →
  ∀ k, k ∈ removeSortedKey keys key ↔ k ∈ keys ∧ k ≠ key.
Proof.
  intros [Hs Hnd] k.
  pose proof (BinarySearch_found_iff keys key Hs) as Hfound.
  pose proof (BinarySearch_found_lookup keys key) as Hlookup.
  unfold removeSortedKey. destruct (BinarySearch keys key) as [pos found] eqn:Hsearch.
  cbn [fst snd] in *. destruct found.
  - assert (keys !! pos = Some key) as Hpos by by apply Hlookup.
    rewrite <-(take_drop_middle keys pos key Hpos) in Hnd.
    rewrite <-(take_drop_middle keys pos key Hpos) at 3.
    apply NoDup_app in Hnd as (_ & Hdisj & [Hnot _]%NoDup_cons).
    rewrite !elem_of_app, elem_of_cons. split; [|tauto].
    intros [Hk|Hk]; (split; [tauto|]); intros ->; [|done].
    apply (Hdisj key Hk). by left.
  - split; [|tauto]. intros Hk. split; [done|].
    intros ->. apply Hfound in Hk. discriminate.
Qed.

(** Removing a key from sorted keys gives sorted keys that hold the
    other keys and no longer the key. *)
Theorem removeSortedKey_sorted (keys : list string) (key : string) :
  keysSorted keys →
  keysSorted (removeSortedKey keys key) ∧
  ∀ k, k ∈ removeSortedKey keys key ↔ k ∈ keys ∧ k ≠ key.
Proof.
  intros Hk. split; [|by apply removeSortedKey_elem].
  eapply keysSorted_sublist; [apply removeSortedKey_sublist|done].
Qed.

Lemma removeSortedKey_sorted_witness :
  keysSorted ["a"; "c"]%string ∧
  keysSorted (removeSortedKey ["a"; "c"]%string "a"%string).
Proof.
  split; [exact keysSorted_ac|].
  exact (proj1 (removeSortedKey_sorted ["a"; "c"]%string "a"%string keysSorted_ac)).
Defined.

(** Removing a key that was just inserted gives back the sorted keys
    if the key was new, and inserting a key that was just removed gives
    them back if the key was there. *)
Theorem insert_remove_round_trip (keys : list string) (key : string) :
  keysSorted keys →
  (key ∉ keys → removeSortedKey (insertSortedKey keys key) key = keys) ∧
  (key ∈ keys → insertSortedKey (removeSortedKey keys key) key = keys).
Proof.
  intros Hk.
  pose proof (insertSortedKey_keysSorted keys key Hk) as Hi.
  pose proof (insertSortedKey_elem keys key (proj1 Hk)) as Hie.
  pose proof (keysSorted_sublist _ _ (removeSortedKey_sublist keys key) Hk) as Hr.
  pose proof (removeSortedKey_elem keys key Hk) as Hre.
  pose proof (keysSorted_sublist _ _ (removeSortedKey_sublist _ key) Hi) as Hri.
  pose proof (removeSortedKey_elem _ key Hi) as Hrie.
  pose proof (insertSortedKey_keysSorted _ key Hr) as Hir.
  pose proof (insertSortedKey_elem _ key (proj1 Hr)) as Hire.
  split; intros Hkey; (apply keysSorted_ext; [done..|]); intros s.
  - rewrite Hrie, Hie. split; [|intros Hs; split; [tauto|by intros ->]].
    intros [[->|Hs] Hne]; done.
  - rewrite Hire, Hre. split; [intros [->|[Hs _]]; done|].
    intros Hs. destruct (decide (s = key)); tauto.
Qed.

Lemma insert_remove_round_trip_witness :
  keysSorted ["a"; "c"]%string ∧
  removeSortedKey (insertSortedKey ["a"; "c"]%string "b"%string) "b"%string
  = ["a"; "c"]%string.
Proof.
  split; [exact keysSorted_ac|].
  apply (proj1 (insert_remove_round_trip ["a"; "c"]%string "b"%string keysSorted_ac)).
  rewrite list_elem_of_In. cbn. intuition discriminate.
Defined.

(** *** Removing the keys of a prefix *)

Lemma ascii_compare_refl (a : ascii) : Ascii.compare a a = Eq.
Proof. unfold Ascii.compare. apply N.compare_refl. Qed.

(** A string is not below its prefixes. *)
Lemma prefix_le (p s : string) : String.prefix p s = true → String.le p s.
Proof.
  revert p. induction s as [|b s IH]; intros [|a p] Hp; cbn in Hp; try done.
  destruct (Ascii.ascii_dec a b) as [->|]; [|done].
  specialize (IH p Hp). unfold String.le, String.leb in *. cbn [String.compare].
  by rewrite ascii_compare_refl.
Qed.

(** The strings with a given prefix lie together in the order. *)
Lemma prefix_between (p a b : string) :
  String.le p a → String.le a b → String.prefix p b = true → String.prefix p a = true.
Proof.
  revert a b. induction p as [|c p IH]; intros a b Hpa Hab Hpb.
  - by destruct a.
  - destruct b as [|c' b]; [done|]. cbn in Hpb.
    destruct (Ascii.ascii_dec c c') as [<-|]; [|done].
    destruct a as [|d a]; [done|].
    unfold String.le, String.leb in Hpa, Hab. cbn [String.compare] in Hpa, Hab.
    rewrite (Ascii.compare_antisym d c) in Hab.
    destruct (Ascii.compare c d) eqn:Hcd; cbn in Hpa, Hab; try done.
    apply Ascii.compare_eq_iff in Hcd as <-. cbn.
    destruct (Ascii.ascii_dec c c); [|done]. by apply (IH a b).
Qed.

Lemma filter_all {A} (P : A → Prop) `{∀ x, Decision (P x)} (l : list A) :
  Forall P l → filter P l = l.
Proof.
  induction 1 as [|x l Hx _ IH]; [done|]. by rewrite filter_cons_True, IH.
Qed.

(** The turns given to the loop are enough: more turns change nothing. *)
Lemma removePrefixedLoop_turns (prefix : string) (limit : Z) (n m : nat) :
  ∀ (keys : list string) (amountDeleted : Z),
    (length keys ≤ n)%nat → (length keys ≤ m)%nat →
    removePrefixedLoop n keys prefix limit amountDeleted
    = removePrefixedLoop m keys prefix limit amountDeleted.
Proof.
  assert (∀ k amountDeleted, removePrefixedLoop k [] prefix limit amountDeleted = []) as Hnil.
  { by intros [|k] amountDeleted. }
  revert m. induction n as [|n IH]; intros m keys amountDeleted Hn Hm.
  - destruct keys; [|cbn in Hn; lia]. by rewrite !Hnil.
  - destruct m as [|m].
    { destruct keys; [|cbn in Hm; lia]. by rewrite !Hnil. }
    cbn [removePrefixedLoop]. destruct (BinarySearch keys prefix) as [pos found].
    destruct (keys !! pos) as [k|] eqn:Hpos; [|done].
    destruct (negb (String.prefix prefix k)); [done|].
    destruct (_ && _); [done|].
    rewrite take_drop_delete. apply lookup_lt_Some in Hpos.
    apply IH; rewrite length_delete by (by apply lookup_lt_is_Some_2); lia.
Qed.

Lemma removePrefixedLoop_removes (prefix : string) (limit : Z) (turns : nat) :
  ∀ (keys : list string) (amountDeleted : Z),
    (0 < limit → amountDeleted < limit)%Z →
    removePrefixedLoop turns keys prefix limit amountDeleted `sublist_of` keys ∧
    ∃ removed,
      keys ≡ₚ removed ++ removePrefixedLoop turns keys prefix limit amountDeleted ∧
      Forall (λ k, String.prefix prefix k = true) removed ∧
      (0 < limit → amountDeleted + Z.of_nat (length removed) ≤ limit)%Z.
Proof.
  assert (∀ (keys : list string) (amountDeleted : Z),
    (0 < limit → amountDeleted < limit)%Z →
    keys `sublist_of` keys ∧
    ∃ removed, keys ≡ₚ removed ++ keys ∧
      Forall (λ k, String.prefix prefix k = true) removed ∧
      (0 < limit → amountDeleted + Z.of_nat (length removed) ≤ limit)%Z) as Hstop.
  { intros keys amountDeleted Hlim. split; [done|]. exists []. split_and!; [done|done|].
    cbn [length]. lia. }
  induction turns as [|turns IH]; intros keys amountDeleted Hlim; cbn [removePrefixedLoop].
  { by apply Hstop. }
  destruct (BinarySearch keys prefix) as [pos found].
  destruct (keys !! pos) as [k|] eqn:Hpos; [|by apply Hstop].
  destruct (String.prefix prefix k) eqn:Hpre; cbn [negb]; [|by apply Hstop].
  rewrite take_drop_delete. pose proof (delete_Permutation keys pos k Hpos) as Hperm.
  destruct (_ && _) eqn:Hreached.
  - split; [apply sublist_delete|]. exists [k]. split_and!; [done|by repeat constructor|].
    apply andb_true_iff in Hreached as [_ Heq%Z.eqb_eq]. cbn [length]. lia.
  - destruct (IH (base.delete pos keys) (amountDeleted + 1)%Z) as [Hsub (removed & Hp & Hall & Hn)].
    { intros Hpos'. specialize (Hlim Hpos').
      apply andb_false_iff in Hreached as [Hle%Z.ltb_ge|Hne%Z.eqb_neq]; lia. }
    split; [etrans; [exact Hsub|apply sublist_delete]|].
    exists (k :: removed). split_and!.
    + etrans; [exact Hperm|]. cbn [app]. by apply perm_skip.
    + by constructor.
    + intros Hpos'. specialize (Hn Hpos'). cbn [length]. lia.
Qed.

(** The keys that are removed for a prefix all start with the prefix,
    the other keys stay in their order, a limit of 0 removes nothing and a
    positive limit bounds the number of removed keys. *)
Theorem removePrefixedSortedKey_removes_prefixed (keys : list string) (prefix : string)
    (limit : Z) :
  removePrefixedSortedKey keys prefix limit `sublist_of` keys ∧
  ∃ removed,
    keys ≡ₚ removed ++ removePrefixedSortedKey keys prefix limit ∧
    Forall (λ k, String.prefix prefix k = true) removed ∧
    (0 ≤ limit → Z.of_nat (length removed) ≤ limit)%Z.
Proof.
  unfold removePrefixedSortedKey. destruct (limit =? 0)%Z eqn:Hzero.
  - apply Z.eqb_eq in Hzero as ->. split; [done|]. exists []. by split_and!.
  - apply Z.eqb_neq in Hzero.
    destruct (removePrefixedLoop_removes prefix limit (length keys) keys 0)
      as [Hsub (removed & Hp & Hall & Hn)]; [lia|].
    split; [done|]. exists removed. split_and!; [done..|]. lia.
Qed.

Lemma removePrefixedLoop_all (prefix : string) (limit : Z) (turns : nat) :
  (limit < 0)%Z →
  ∀ (keys : list string) (amountDeleted : Z),
    (length keys ≤ turns)%nat → StronglySorted String.le keys →
    removePrefixedLoop turns keys prefix limit amountDeleted
    = filter (λ k, String.prefix prefix k = false) keys.
Proof.
  intros Hlimit. induction turns as [|turns IH]; intros keys amountDeleted Hlen Hs.
  { by destruct keys; [|cbn in Hlen; lia]. }
  cbn [removePrefixedLoop]. destruct (BinarySearch_split keys prefix Hs) as [Hlow Hhigh].
  destruct (BinarySearch keys prefix) as [pos found]. cbn [fst] in Hlow, Hhigh.
  assert (Forall (λ k, String.prefix prefix k = false) (take pos keys)) as Hbefore.
  { eapply Forall_impl; [exact Hlow|]. cbn. intros s Hlt. apply not_true_iff_false.
    intros Hpre%prefix_le. by apply ltb_not_le in Hlt. }
  destruct (keys !! pos) as [k|] eqn:Hpos.
  - pose proof (take_drop_middle keys pos k Hpos) as Hsplit.
    destruct (String.prefix prefix k) eqn:Hpre; cbn [negb].
    + assert ((0 <? limit)%Z = false) as -> by (apply Z.ltb_ge; lia). cbn [andb].
      rewrite take_drop_delete, IH.
      * rewrite <-Hsplit at 2. rewrite <-take_drop_delete, !filter_app, filter_cons_False; [done|].
        by rewrite Hpre.
      * apply lookup_lt_Some in Hpos. rewrite length_delete by (by apply lookup_lt_is_Some_2). lia.
      * eapply StronglySorted_sublist; [apply sublist_delete|done].
    + symmetry. apply filter_all. rewrite <-Hsplit.
      apply Forall_app. split; [done|]. constructor; [done|].
      rewrite <-Hsplit in Hs. apply StronglySorted_app_1_r, StronglySorted_cons in Hs as [Hk _].
      eapply Forall_impl; [exact Hk|]. cbn. intros s Hks. apply not_true_iff_false.
      intros Hs'. apply not_true_iff_false in Hpre. apply Hpre.
      apply (prefix_between prefix k s); [|done..].
      eapply Forall_forall in Hhigh; [exact Hhigh|].
      rewrite <-(take_drop_middle keys pos k Hpos) at 1.
      rewrite drop_app_length'; [by left|]. rewrite length_take.
      apply lookup_lt_Some in Hpos. lia.
  - symmetry. apply filter_all. apply lookup_ge_None in Hpos.
    by rewrite take_ge in Hbefore.
Qed.

(** With a negative limit, as [ClearPrefix] passes it, sorted keys
    lose exactly the keys that start with the prefix. *)
Theorem removePrefixedSortedKey_clears_prefix (keys : list string) (prefix : string)
    (limit : Z) :
  StronglySorted String.le keys → (limit < 0)%Z →
  removePrefixedSortedKey keys prefix limit
  = filter (λ k, String.prefix prefix k = false) keys.
Proof.
  intros Hs Hlimit. unfold removePrefixedSortedKey.
  assert ((limit =? 0)%Z = false) as -> by (apply Z.eqb_neq; lia).
  by apply removePrefixedLoop_all.
Qed.

Lemma removePrefixedSortedKey_clears_prefix_witness :
  StronglySorted String.le ["a"; "ab"; "b"]%string ∧ (-1 < 0)%Z ∧
  removePrefixedSortedKey ["a"; "ab"; "b"]%string "a"%string (-1) = ["b"]%string.
Proof.
  assert (StronglySorted String.le ["a"; "ab"; "b"]%string) as Hs.
  { repeat constructor. }
  split; [exact Hs|]. split; [lia|].
  by rewrite (removePrefixedSortedKey_clears_prefix _ "a"%string (-1) Hs).
Defined.

(** *** The next key under a transaction *)

Section More.

Context {T : Type} {trie : Trie T}.

Implicit Types (t : TrieState T) (tx : storageDiff).

(** On sorted keys without duplicates, the key after the position of the
    search is the least key above the target. *)
Lemma lookup_after_search (x : list string) (key : string) :
  StronglySorted String.le x → NoDup x →
  match
    (let '(pos, found) := BinarySearch x key in
     x !! (if found then (pos + 1)%nat else pos))
  with
  | Some k =>
      k ∈ x ∧ String.ltb key k = true ∧
      ∀ k', k' ∈ x → String.ltb key k' = true → String.le k k'
  | None => ∀ k', k' ∈ x → String.ltb key k' = false
  end.
Proof.
  intros Hs Hnd.
  destruct (BinarySearch_lower_bound x key Hs) as [Hlow Hhigh].
  pose proof (BinarySearch_found_lookup x key) as Hfound.
  destruct (BinarySearch x key) as [pos found]. cbn [fst snd] in *.
  assert (∀ a b, String.le a b → a ≠ b → String.ltb a b = true) as Hstrict.
  { intros a b Hab Hne. apply ltb_not_le. intros Hba. by apply Hne, (anti_symm String.le). }
  destruct found.
  - assert (x !! pos = Some key) as Hpos by by apply Hfound.
    destruct (x !! (pos + 1)%nat) as [k|] eqn:Hnext.
    + split_and!.
      * by eapply list_elem_of_lookup_2.
      * apply Hstrict; [apply (sorted_lookup_le x pos (pos + 1)); [done|lia|done..]|].
        intros ->. pose proof (NoDup_lookup _ _ _ _ Hnd Hpos Hnext). lia.
      * intros k' [q Hq]%list_elem_of_lookup_1 Hlt.
        apply (sorted_lookup_le x (pos + 1) q); [done| |done..].
        apply Nat.nlt_ge. intros Hqp. apply ltb_not_le in Hlt. apply Hlt.
        apply (sorted_lookup_le x q pos); [done|lia|done..].
    + intros k' [q Hq]%list_elem_of_lookup_1. apply ltb_false_le.
      apply lookup_ge_None in Hnext. pose proof (lookup_lt_Some _ _ _ Hq).
      apply (sorted_lookup_le x q pos); [done|lia|done..].
  - assert (x !! pos ≠ Some key) as Hpos.
    { intros Hpos%Hfound. discriminate. }
    destruct (x !! pos) as [k|] eqn:Hnext.
    + split_and!.
      * by eapply list_elem_of_lookup_2.
      * apply Hstrict; [|congruence]. apply ltb_false_le. by apply (Hhigh pos).
      * intros k' [q Hq]%list_elem_of_lookup_1 Hlt.
        apply (sorted_lookup_le x pos q); [done| |done..].
        apply Nat.nlt_ge. intros Hqp. apply ltb_not_le in Hlt. apply Hlt.
        apply ltb_le. by apply (Hlow q).
    + intros k' [q Hq]%list_elem_of_lookup_1. apply ltb_false_le, ltb_le.
      apply lookup_ge_None in Hnext. pose proof (lookup_lt_Some _ _ _ Hq).
      apply (Hlow q); [lia|done].
Qed.

(** Under a transaction, when no key is both among the main keys
    that are not deleted and among the keys of the transaction, and none
    is there twice, the next key is the least of these keys above the
    given one, and there is none if no key is above it. *)
Theorem NextKey_in_transaction (key : string) t tx :
  getCurrentTransaction t = Some tx →
  NoDup (filter (λ s, s ∉ deletes tx) (sortedKeys t) ++ diffSortedKeys tx) →
  match NextKey key t with
  | Some k =>
      k ∈ filter (λ s, s ∉ deletes tx) (sortedKeys t) ++ diffSortedKeys tx ∧
      String.ltb key k = true ∧
      ∀ k', k' ∈ filter (λ s, s ∉ deletes tx) (sortedKeys t) ++ diffSortedKeys tx →
            String.ltb key k' = true → String.le k k'
  | None =>
      ∀ k', k' ∈ filter (λ s, s ∉ deletes tx) (sortedKeys t) ++ diffSortedKeys tx →
            String.ltb key k' = false
  end.
Proof.
  intros Htx Hnd. unfold NextKey. rewrite Htx. unfold sortStrings.
  set (all := filter (λ s, s ∉ deletes tx) (sortedKeys t) ++ diffSortedKeys tx) in *.
  pose proof (merge_sort_Permutation String.le all) as Hperm.
  assert (∀ k, k ∈ merge_sort String.le all ↔ k ∈ all) as Helem.
  { intros k. by rewrite Hperm. }
  pose proof (lookup_after_search (merge_sort String.le all) key
    (StronglySorted_merge_sort String.le all)) as Hnext.
  rewrite Hperm in Hnext at 1. specialize (Hnext Hnd).
  destruct (let '(pos, found) := BinarySearch (merge_sort String.le all) key in _) as [k|].
  - destruct Hnext as (Hin & Hlt & Hleast). split_and!; [by apply Helem|done|].
    intros k' Hk'. by apply Hleast, Helem.
  - intros k' Hk'. by apply Hnext, Helem.
Qed.

(** *** The sorted keys of the main trie *)

Lemma sortedKeys_foldl_add (keys : list string) t :
  sortedKeys (foldl (λ acc k, addMainTrieSortedKey k acc) t keys)
  = foldl insertSortedKey (sortedKeys t) keys.
Proof. revert t. induction keys as [|k keys IH]; intros t; [done|]. cbn [foldl]. by rewrite IH. Qed.

Lemma sortedKeys_foldl_remove (keys : list string) t :
  sortedKeys (foldl (λ acc k, removeMainTrieSortedKey k acc) t keys)
  = foldl removeSortedKey (sortedKeys t) keys.
Proof. revert t. induction keys as [|k keys IH]; intros t; [done|]. cbn [foldl]. by rewrite IH. Qed.

Lemma foldl_insertSortedKey (added : list string) :
  ∀ keys, keysSorted keys →
    keysSorted (foldl insertSortedKey keys added) ∧
    ∀ k, k ∈ foldl insertSortedKey keys added ↔ k ∈ keys ∨ k ∈ added.
Proof.
  induction added as [|a added IH]; intros keys Hk; cbn [foldl].
  - split; [done|]. intros k. rewrite elem_of_nil. tauto.
  - destruct (IH _ (insertSortedKey_keysSorted keys a Hk)) as [Hsorted Helem].
    split; [done|]. intros k.
    rewrite Helem, (insertSortedKey_elem keys a (proj1 Hk)), elem_of_cons. tauto.
Qed.

Lemma foldl_removeSortedKey (removed : list string) :
  ∀ keys, keysSorted keys →
    keysSorted (foldl removeSortedKey keys removed) ∧
    ∀ k, k ∈ foldl removeSortedKey keys removed ↔ k ∈ keys ∧ k ∉ removed.
Proof.
  induction removed as [|a removed IH]; intros keys Hk; cbn [foldl].
  - split; [done|]. intros k. rewrite elem_of_nil. tauto.
  - destruct (IH _ (keysSorted_sublist _ _ (removeSortedKey_sublist keys a) Hk))
      as [Hsorted Helem].
    split; [done|]. intros k.
    rewrite Helem, (removeSortedKey_elem keys a Hk), not_elem_of_cons. tauto.
Qed.

Lemma CommitTransaction_keysSorted t t' :
  keysSorted (sortedKeys t) → CommitTransaction t = Some t' → keysSorted (sortedKeys t').
Proof.
  intros Hk Hc. unfold CommitTransaction in Hc.
  destruct (transactions t) as [|tx [|tx' outer]]; [done| |by injection Hc as <-].
  injection Hc as <-. rewrite sortedKeys_foldl_remove, sortedKeys_foldl_add. cbn [sortedKeys].
  apply foldl_removeSortedKey. by apply foldl_insertSortedKey.
Qed.

(** Committing the last transaction leaves no transaction, and the
    sorted keys of the main trie are then the keys that were there and the
    keys of the transaction, without the keys the transaction deleted. *)
Theorem CommitTransaction_updates_sorted_keys t tx :
  transactions t = [tx] → keysSorted (sortedKeys t) →
  ∃ t', CommitTransaction t = Some t' ∧ transactions t' = [] ∧
        keysSorted (sortedKeys t') ∧
        ∀ k, k ∈ sortedKeys t' ↔
             (k ∈ sortedKeys t ∨ k ∈ diffSortedKeys tx) ∧ k ∉ deletes tx.
Proof.
  intros Htx Hk. unfold CommitTransaction. rewrite Htx. eexists. split; [done|].
  split.
  { by rewrite (proj1 (transactions_foldl_remove _ _)), (proj1 (transactions_foldl_add _ _)). }
  rewrite sortedKeys_foldl_remove, sortedKeys_foldl_add. cbn [sortedKeys].
  destruct (foldl_insertSortedKey (diffSortedKeys tx) _ Hk) as [Hi Hie].
  destruct (foldl_removeSortedKey (elements (deletes tx)) _ Hi) as [Hr Hre].
  split; [done|]. intros k. by rewrite Hre, Hie, elem_of_elements.
Qed.

Lemma perform_keysSorted (w : write) t :
  keysSorted (sortedKeys t) → keysSorted (sortedKeys (perform w t)).
Proof.
  intros Hk. destruct w as [key value|key]; cbn [perform]; unfold Put, Delete, onCurrent;
    destruct (getCurrentTransaction t) eqn:Hcur; unfold getCurrentTransaction in Hcur.
  - by destruct (transactions t).
  - by apply insertSortedKey_keysSorted.
  - by destruct (transactions t).
  - eapply keysSorted_sublist; [apply removeSortedKey_sublist|done].
Qed.

Lemma invoke_keysSorted (c : call) t t' :
  keysSorted (sortedKeys t) → invoke c t = Some t' → keysSorted (sortedKeys t').
Proof.
  intros Hk Hc. destruct c as [w| | |]; cbn [invoke] in Hc.
  - injection Hc as <-. by apply perform_keysSorted.
  - by injection Hc as <-.
  - unfold RollbackTransaction in Hc. destruct (transactions t); [done|]. by injection Hc as <-.
  - by eapply CommitTransaction_keysSorted.
Qed.

(** Whatever the runtime calls on a new state container, writes and
    starts, rollbacks and commits of transactions, the sorted keys of the
    main trie stay in ascending order with every key once. *)
Theorem sorted_keys_stay_sorted (initialState : T) (cs : list call) t :
  invokeAll cs (NewTrieState initialState) = Some t → keysSorted (sortedKeys t).
Proof.
  assert (keysSorted (sortedKeys (NewTrieState initialState))) as Hk.
  { split; constructor. }
  revert Hk. generalize (NewTrieState initialState). induction cs as [|c cs IH]; intros t0 Hk Hrun.
  - cbn in Hrun. by injection Hrun as <-.
  - cbn [invokeAll] in Hrun. destruct (invoke c t0) as [t1|] eqn:Hc; [|done].
    apply (IH t1); [|done]. by eapply invoke_keysSorted.
Qed.

End More.

(** Over the map trie with the committed keys [a] and [b], under a
    transaction that has put [c] and deleted [b]. *)
Lemma NextKey_in_transaction_witness :
  getCurrentTransaction pendingC = Some pendingCDiff ∧
  NoDup (filter (λ s, s ∉ deletes pendingCDiff) (sortedKeys pendingC)
         ++ diffSortedKeys pendingCDiff) ∧
  match NextKey "a" pendingC with
  | Some k =>
      k ∈ filter (λ s, s ∉ deletes pendingCDiff) (sortedKeys pendingC)
          ++ diffSortedKeys pendingCDiff ∧
      String.ltb "a" k = true ∧
      ∀ k', k' ∈ filter (λ s, s ∉ deletes pendingCDiff) (sortedKeys pendingC)
                 ++ diffSortedKeys pendingCDiff →
            String.ltb "a" k' = true → String.le k k'
  | None =>
      ∀ k', k' ∈ filter (λ s, s ∉ deletes pendingCDiff) (sortedKeys pendingC)
                 ++ diffSortedKeys pendingCDiff →
            String.ltb "a" k' = false
  end.
Proof.
  assert (getCurrentTransaction pendingC = Some pendingCDiff) as Htx by reflexivity.
  assert (NoDup (filter (λ s, s ∉ deletes pendingCDiff) (sortedKeys pendingC)
                 ++ diffSortedKeys pendingCDiff)) as Hnd.
  { apply (bool_decide_unpack _). vm_compute. exact I. }
  split; [exact Htx|]. split; [exact Hnd|].
  exact (NextKey_in_transaction "a" pendingC pendingCDiff Htx Hnd).
Defined.

Lemma CommitTransaction_updates_sorted_keys_witness :
  transactions pendingC = [pendingCDiff] ∧ keysSorted (sortedKeys pendingC) ∧
  ∃ t', CommitTransaction pendingC = Some t' ∧ transactions t' = [] ∧
        keysSorted (sortedKeys t') ∧
        ∀ k, k ∈ sortedKeys t' ↔
             (k ∈ sortedKeys pendingC ∨ k ∈ diffSortedKeys pendingCDiff) ∧
             k ∉ deletes pendingCDiff.
Proof.
  assert (transactions pendingC = [pendingCDiff]) as Htx by reflexivity.
  assert (keysSorted (sortedKeys pendingC)) as Hk.
  { unfold keysSorted. apply (bool_decide_unpack _). vm_compute. exact I. }
  split; [exact Htx|]. split; [exact Hk|].
  exact (CommitTransaction_updates_sorted_keys pendingC pendingCDiff Htx Hk).
Defined.

Lemma sorted_keys_stay_sorted_witness :
  invokeAll someCalls (NewTrieState (∅ : gmap string string)) = Some afterSomeCalls ∧
  keysSorted (sortedKeys afterSomeCalls).
Proof.
  assert (invokeAll someCalls (NewTrieState (∅ : gmap string string))
          = Some afterSomeCalls) as Hrun by reflexivity.
  split; [exact Hrun|].
  exact (sorted_keys_stay_sorted ∅ someCalls afterSomeCalls Hrun).
Defined.

End TrieStateMore.
